(** * Inline-markup parser of the post model (client_cpp/src/posts/models.hh)

    A shallow embedding of [TextState] and of the template scanners of
    [Post] ([parse_string], [parse_code], [parse_spoilers], [parse_bolds],
    [parse_italics]), with the properties of the formatting pipeline proved
    over it.

    The C++ code mutates a [TextState] and, through the [Node*] entries of
    [TextState::parents], the node tree the pointers point into.  Both are
    threaded explicitly: a [Node*] is the path of child indices from the
    root node, and every scanner is a state transformer that may also hit
    undefined behaviour ([pop_back] or [back] on an empty vector) or, since
    the [while (1)] loop of [parse_string] is modelled with fuel, run out
    of fuel. *)

From Stdlib Require Import List String Ascii Bool Arith Lia ZArith Permutation.
Import ListNotations.

Local Open Scope string_scope.
Local Open Scope list_scope.

Set Implicit Arguments.
Set Warnings "-register-all".

(** ** Outcomes and the state transformer the scanners run in *)

Inductive outcome (S A : Type) : Type :=
| Done (a : A) (s : S)   (* normal return *)
| Undefined              (* undefined behaviour of the C++ code *)
| OutOfFuel.               (* the fuel of a loop ran out *)

Arguments Done {S A} a s.
Arguments Undefined {S A}.
Arguments OutOfFuel {S A}.

Definition M (S A : Type) : Type := S -> outcome S A.

Definition ret {S A} (a : A) : M S A := fun s => Done a s.

Definition bind {S A B} (c : M S A) (k : A -> M S B) : M S B :=
  fun s =>
    match c s with
    | Done a s' => k a s'
    | Undefined => Undefined
    | OutOfFuel => OutOfFuel
    end.

Declare Scope scan_scope.
Delimit Scope scan_scope with scan.
Notation "c1 ;; c2" := (bind c1 (fun _ => c2))
  (at level 61, right associativity) : scan_scope.
Local Open Scope scan_scope.

(** [if (c) { body }] with no else branch. *)
Definition when {S} (c : bool) (body : M S unit) : M S unit :=
  if c then body else ret tt.

(** ** std::string_view operations used by the scanners *)

(** [frag.find(sep)]: index of the first occurrence, [None] for [npos]. *)
Fixpoint find (frag sep : string) : option nat :=
  if String.prefix sep frag then Some 0
  else match frag with
       | EmptyString => None
       | String _ rest => option_map S (find rest sep)
       end.

(** [frag.substr(pos, n)] and [frag.substr(pos)]. *)
Definition substr (frag : string) (pos n : nat) : string :=
  String.substring pos n frag.

Definition substr_from (frag : string) (pos : nat) : string :=
  String.substring pos (String.length frag - pos) frag.

(** ** Post::parse_string *)

(** The loop body runs once per unit of fuel; [filler] and [on_match] are
    the two template callbacks. *)
Fixpoint parse_string {S} (fuel : nat) (frag sep : string)
    (filler : string -> M S unit) (on_match : M S unit) : M S unit :=
  match fuel with
  | O => fun _ => OutOfFuel
  | Datatypes.S fuel' =>
      match find frag sep with
      | Some i =>
          filler (substr frag 0 i) ;;
          on_match ;;
          parse_string fuel' (substr_from frag (i + String.length sep)) sep
            filler on_match
      | None => filler frag
      end
  end.

(** ** The scan as the specification words it *)

(** Prepend a character to the first piece of a split. *)
Definition cons_first (c : ascii) (ps : list string) : list string :=
  match ps with
  | [] => [String c EmptyString]
  | p :: ps' => String c p :: ps'
  end.

(** The pieces of [frag] split at the occurrences of the two-character
    delimiter [a b], taken left to right, an occurrence starting only
    strictly after the previous one ends. *)
Fixpoint split2 (a b : ascii) (frag : string) : list string :=
  match frag with
  | EmptyString => [EmptyString]
  | String x tl =>
      match tl with
      | EmptyString => [frag]
      | String y rest =>
          if Ascii.eqb x a && Ascii.eqb y b
          then EmptyString :: split2 a b rest
          else cons_first x (split2 a b tl)
      end
  end.

(** Number of occurrences of the delimiter counted left to right, an
    occurrence starting only strictly after the previous one ends. *)
Fixpoint occurrences (a b : ascii) (frag : string) : nat :=
  match frag with
  | EmptyString => 0
  | String x tl =>
      match tl with
      | EmptyString => 0
      | String y rest =>
          if Ascii.eqb x a && Ascii.eqb y b
          then S (occurrences a b rest)
          else occurrences a b tl
      end
  end.

(** Putting the pieces back together around the delimiter. *)
Fixpoint join (sep : string) (ps : list string) : string :=
  match ps with
  | [] => EmptyString
  | [p] => p
  | p :: ps' => p ++ sep ++ join sep ps'
  end.

(** Filler on the first piece, then toggle and filler for each further
    piece. *)
Fixpoint run_pieces {S} (filler : string -> M S unit) (on_match : M S unit)
    (ps : list string) : M S unit :=
  match ps with
  | [] => ret tt
  | [p] => filler p
  | p :: ps' => filler p ;; on_match ;; run_pieces filler on_match ps'
  end.

(** A log of callback invocations, to count them. *)
Inductive event : Type :=
| Filler (piece : string)
| Toggle.

Definition log_filler (piece : string) : M (list event) unit :=
  fun l => Done tt (l ++ [Filler piece]).

Definition log_toggle : M (list event) unit :=
  fun l => Done tt (l ++ [Toggle]).

Fixpoint interleave (ps : list string) : list event :=
  match ps with
  | [] => []
  | [p] => [Filler p]
  | p :: ps' => Filler p :: Toggle :: interleave ps'
  end.

Definition is_toggle (e : event) : bool :=
  match e with Toggle => true | Filler _ => false end.

Definition sep2 (a b : ascii) : string := String a (String b EmptyString).

(** ** The node tree *)

(** Modelled from the spec: [brunhild::Node] is declared in
    brunhild/view.hh, which is not part of the source; the spec gives it a
    tag name, an attribute mapping and an ordered sequence of child nodes.
    [inner_html] holds the text of the two-argument form [{ "span", s }]. *)
Inductive Node : Type :=
  mkNode {
    tag : string;
    attrs : list (string * string);
    children : list Node;
    inner_html : option string
  }.

(** [Node{ t }] and [Node{ t, text }]. *)
Definition element (t : string) : Node := mkNode t [] [] None.
Definition text_element (t text : string) : Node := mkNode t [] [] (Some text).

(** A [Node*] into the tree: the child indices leading from the root. *)
Definition path : Type := list nat.

Fixpoint lookup (p : path) (n : Node) : option Node :=
  match p with
  | [] => Some n
  | i :: q =>
      match nth_error (children n) i with
      | Some c => lookup q c
      | None => None
      end
  end.

Definition tag_at (r : Node) (p : path) : option string :=
  option_map tag (lookup p r).

Fixpoint set_nth {A} (i : nat) (x : A) (l : list A) : list A :=
  match l, i with
  | [], _ => []
  | _ :: t, O => x :: t
  | y :: t, S j => y :: set_nth j x t
  end.

Definition push_back_child (n c : Node) : Node :=
  mkNode (tag n) (attrs n) (children n ++ [c]) (inner_html n).

Definition with_children (n : Node) (cs : list Node) : Node :=
  mkNode (tag n) (attrs n) cs (inner_html n).

(** [p->children.push_back(c)] seen from the root: the tree in which the
    node at [p] has [c] as its new last child. *)
Fixpoint graft (p : path) (c : Node) (n : Node) : Node :=
  match p with
  | [] => push_back_child n c
  | i :: q =>
      match nth_error (children n) i with
      | Some ch => with_children n (set_nth i (graft q c ch) (children n))
      | None => n
      end
  end.

(** ** TextState *)

Record TextState : Type :=
  mkTextState {
    spoiler : bool;
    quote : bool;
    code : bool;
    bold : bool;
    italic : bool;
    have_syncwatch : bool;
    successive_newlines : Z;
    dice_index : Z;
    parents : list path   (* [std::vector<Node*>], back of the vector last *)
  }.

(** What a scan works on: the post's [state] and the tree under the node
    given to [reset], into which the entries of [parents] point. *)
Record Mem : Type :=
  mkMem {
    state : TextState;
    root : Node
  }.

Definition set_parents (ps : list path) (s : TextState) : TextState :=
  mkTextState (spoiler s) (quote s) (code s) (bold s) (italic s)
    (have_syncwatch s) (successive_newlines s) (dice_index s) ps.

Definition set_spoiler (b : bool) (s : TextState) : TextState :=
  mkTextState b (quote s) (code s) (bold s) (italic s)
    (have_syncwatch s) (successive_newlines s) (dice_index s) (parents s).

Definition set_code (b : bool) (s : TextState) : TextState :=
  mkTextState (spoiler s) (quote s) b (bold s) (italic s)
    (have_syncwatch s) (successive_newlines s) (dice_index s) (parents s).

Definition set_bold (b : bool) (s : TextState) : TextState :=
  mkTextState (spoiler s) (quote s) (code s) b (italic s)
    (have_syncwatch s) (successive_newlines s) (dice_index s) (parents s).

Definition set_italic (b : bool) (s : TextState) : TextState :=
  mkTextState (spoiler s) (quote s) (code s) (bold s) b
    (have_syncwatch s) (successive_newlines s) (dice_index s) (parents s).

(** [v.back()], [None] on an empty vector. *)
Fixpoint back {A} (l : list A) : option A :=
  match l with
  | [] => None
  | [x] => Some x
  | _ :: t => back t
  end.

(** [void ascend() { parents.pop_back(); }]: [pop_back] on an empty vector
    is undefined behaviour; on any other vector it removes the last entry. *)
Definition ascend : M Mem unit :=
  fun m =>
    match parents (state m) with
    | [] => Undefined
    | _ :: _ =>
        Done tt (mkMem (set_parents (removelast (parents (state m))) (state m))
                       (root m))
    end.

(** Modelled from the spec: [TextState::append] is only declared in the
    source.  It inserts the node as the last child of the top-of-stack
    insertion point and, when [descend] holds, pushes the inserted node as
    the new top of stack.  An empty stack or a pointer that leads nowhere
    is undefined behaviour. *)
Definition append (n : Node) (descend : bool) : M Mem unit :=
  fun m =>
    match back (parents (state m)) with
    | None => Undefined
    | Some p =>
        match lookup p (root m) with
        | None => Undefined
        | Some x =>
            let r := graft p n (root m) in
            if descend
            then Done tt
                   (mkMem (set_parents
                             (parents (state m)
                                ++ [p ++ [List.length (children x)]])
                             (state m)) r)
            else Done tt (mkMem (state m) r)
        end
    end.

(** Modelled from the spec: [TextState::reset] is only declared in the
    source.  It clears all flags and counters, empties the stack and
    pushes the root as its sole entry. *)
Definition reset (r : Node) : Mem :=
  mkMem (mkTextState false false false false false false 0 0 [[]]) r.

(** Field reads and writes on [state]. *)
Definition get {A} (f : TextState -> A) : M Mem A :=
  fun m => Done (f (state m)) m.

Definition modify (f : TextState -> TextState) : M Mem unit :=
  fun m => Done tt (mkMem (f (state m)) (root m)).

Notation "x <- c1 ;; c2" := (bind c1 (fun x => c2))
  (at level 61, c1 at next level, right associativity) : scan_scope.

(** ** The toggles of the four levels *)

(** [[this]() { state.code = !state.code; }] *)
Definition toggle_code : M Mem unit :=
  modify (fun s => set_code (negb (code s)) s).

(** The [on_match] lambda of [parse_spoilers]. *)
Definition toggle_spoiler : M Mem unit :=
  (i <- get italic ;; when i ascend) ;;
  (b <- get bold ;; when b ascend) ;;
  (s <- get spoiler ;;
   if s then ascend else append (element "del") true) ;;
  (b <- get bold ;; when b (append (element "b") true)) ;;
  (i <- get italic ;; when i (append (element "i") true)) ;;
  modify (fun s => set_spoiler (negb (spoiler s)) s).

(** The [on_match] lambda of [parse_bolds]. *)
Definition toggle_bold : M Mem unit :=
  (i <- get italic ;; when i ascend) ;;
  (b <- get bold ;;
   if b then ascend else append (element "b") true) ;;
  (i <- get italic ;; when i (append (element "i") true)) ;;
  modify (fun s => set_bold (negb (bold s)) s).

(** The [on_match] lambda of [parse_italics]. *)
Definition toggle_italic : M Mem unit :=
  (i <- get italic ;;
   if i then ascend else append (element "i") true) ;;
  modify (fun s => set_italic (negb (italic s)) s).

(** ** The scanners *)

(** The quote-stripping loop of [parse_code]:
    [while (frag.size() && frag[0] == '>') frag = frag.substr(1);] *)
Fixpoint strip_quotes (frag : string) : string :=
  match frag with
  | String c rest => if Ascii.eqb c ">" then strip_quotes rest else frag
  | EmptyString => frag
  end.

(** The string built by [for (int i = 0; i <= num_quotes; i++) s += "&gt;"]:
    the body runs [num_quotes + 1] times. *)
Fixpoint gt_entities (times : nat) : string :=
  match times with
  | O => EmptyString
  | S k => "&gt;" ++ gt_entities k
  end.

Section Pipeline.

(** [Post::highlight_syntax] is only declared in the source, and [fn] is
    the callback the caller of the pipeline passes in: both are
    parameters of the scanners. *)
Variable highlight_syntax : string -> M Mem unit.
Variable fn : string -> M Mem unit.

Definition parse_italics (fuel : nat) (frag : string) : M Mem unit :=
  parse_string fuel frag "~~" fn toggle_italic.

Definition parse_bolds (fuel : nat) (frag : string) : M Mem unit :=
  parse_string fuel frag "__" (fun frag => parse_italics fuel frag)
    toggle_bold.

Definition parse_spoilers (fuel : nat) (frag : string) : M Mem unit :=
  parse_string fuel frag "**" (fun frag => parse_bolds fuel frag)
    toggle_spoiler.

(** The filler lambda of [parse_code].  [num_quotes] is initialised to 0
    and the stripping loop never assigns it. *)
Definition code_filler (fuel : nat) (frag : string) : M Mem unit :=
  c <- get code ;;
  if c then
    let num_quotes := 0 in
    let frag := strip_quotes frag in
    when (negb (Nat.eqb num_quotes 0))
      (append (text_element "span" (gt_entities (num_quotes + 1))) false) ;;
    highlight_syntax frag
  else parse_spoilers fuel frag.

Definition parse_code (fuel : nat) (frag : string) : M Mem unit :=
  parse_string fuel frag "``" (code_filler fuel) toggle_code.

End Pipeline.

(** ** Well-nestedness of the tree *)

(** Rank of a tag in the canonical nesting: spoiler, bold, italic, and 4
    for every tag that is not a formatting element. *)
Definition rank (t : string) : nat :=
  if String.eqb t "del" then 1
  else if String.eqb t "b" then 2
  else if String.eqb t "i" then 3
  else 4.

(** A node of rank [r] may sit directly inside a context of rank [k]. *)
Definition lvl_ok (k r : nat) : bool := Nat.eqb r 4 || Nat.ltb k r.

(** [wf k n]: every formatting element of [n], [n] included, sits directly
    inside a formatting element of smaller rank or inside the rank-[k]
    context; nothing but non-formatting elements sit inside a
    non-formatting element. *)
Fixpoint wf (k : nat) (n : Node) : bool :=
  match n with
  | mkNode t _ cs _ => lvl_ok k (rank t) && forallb (wf (rank t)) cs
  end.

(** No [del], [b] or [i] element anywhere in the node. *)
Definition plain (n : Node) : bool := wf 4 n.

(** The root is the caller's node: only what is under it is constrained. *)
Definition wf_root (r : Node) : bool := forallb (wf 0) (children r).

(** ** Shape of the insertion-point stack *)

(** Tags of the open formatting levels, outermost first. *)
Definition open_tags (s : TextState) : list string :=
  (if spoiler s then ["del"] else [])
  ++ (if bold s then ["b"] else [])
  ++ (if italic s then ["i"] else []).

(** [ps] points to elements tagged [tags], each a child of the one before,
    the first a child of the node at [p0]. *)
Fixpoint chain (r : Node) (p0 : path) (tags : list string) (ps : list path)
    : Prop :=
  match tags, ps with
  | [], [] => True
  | t :: ts, q :: qs =>
      (exists j, q = p0 ++ [j]) /\ tag_at r q = Some t /\ chain r q ts qs
  | _, _ => False
  end.

(** The stack is [base], then the live pointer [p0], then one pointer per
    open formatting level in canonical order. *)
Definition shape (base : list path) (p0 : path) (m : Mem) : Prop :=
  exists ps,
    parents (state m) = base ++ p0 :: ps
    /\ (exists t, tag_at (root m) p0 = Some t)
    /\ chain (root m) p0 (open_tags (state m)) ps.

(** The invariant of a scan: the stack shape and, when [w] is set, a stack
    that starts at the root of a well-nested tree. *)
Definition good (base : list path) (p0 : path) (w : bool) (m : Mem) : Prop :=
  shape base p0 m /\ (w = true -> p0 = [] /\ wf_root (root m) = true).

(** The state up to the stack. *)
Definition flags_of (s : TextState) : TextState := set_parents [] s.

(** ** Callbacks that only emit leaves *)

Fixpoint append_all (ns : list Node) : M Mem unit :=
  match ns with
  | [] => ret tt
  | n :: ns' => append n false ;; append_all ns'
  end.

(** The callback appends nodes free of formatting elements at the current
    insertion point and does nothing else. *)
Definition emits_plain (f : string -> M Mem unit) : Prop :=
  forall frag m,
    exists ns, Forall (fun n => plain n = true) ns /\ f frag m = append_all ns m.

(** ** The four levels *)

Inductive level : Type := Code | Spoiler | Bold | Italic.

Definition toggle (l : level) : M Mem unit :=
  match l with
  | Code => toggle_code
  | Spoiler => toggle_spoiler
  | Bold => toggle_bold
  | Italic => toggle_italic
  end.

Definition flag (l : level) (s : TextState) : bool :=
  match l with
  | Code => code s
  | Spoiler => spoiler s
  | Bold => bold s
  | Italic => italic s
  end.

Definition delimiter (l : level) : ascii :=
  match l with
  | Code => "`"
  | Spoiler => "*"
  | Bold => "_"
  | Italic => "~"
  end%char.

Definition set_flag (l : level) (b : bool) (s : TextState) : TextState :=
  match l with
  | Code => set_code b s
  | Spoiler => set_spoiler b s
  | Bold => set_bold b s
  | Italic => set_italic b s
  end.

Fixpoint run_toggles (ls : list level) : M Mem unit :=
  match ls with
  | [] => ret tt
  | l :: ls' => toggle l ;; run_toggles ls'
  end.

(** Number of set flags among spoiler, bold and italic. *)
Definition open_count (s : TextState) : nat :=
  Nat.b2n (spoiler s) + Nat.b2n (bold s) + Nat.b2n (italic s).

(** The scanner of a level. *)
Definition scanner (highlight_syntax fn : string -> M Mem unit) (l : level)
    (fuel : nat) (frag : string) : M Mem unit :=
  match l with
  | Code => parse_code highlight_syntax fn fuel frag
  | Spoiler => parse_spoilers fn fuel frag
  | Bold => parse_bolds fn fuel frag
  | Italic => parse_italics fn fuel frag
  end.

(** Flags of the levels scanned before level [l] agree in two states. *)
Definition outer_eq (l : level) (s s' : TextState) : Prop :=
  match l with
  | Code => True
  | Spoiler => code s = code s'
  | Bold => code s = code s' /\ spoiler s = spoiler s'
  | Italic => code s = code s' /\ spoiler s = spoiler s' /\ bold s = bold s'
  end.

(** What the scanner of level [l] maintains: the scan invariant, the flags
    of the outer levels as in [s0], and the flag of [l] equal to [x]. *)
Definition inv_at (base : list path) (p0 : path) (w : bool) (l : level)
    (s0 : TextState) (x : bool) (m : Mem) : Prop :=
  good base p0 w m /\ outer_eq l s0 (state m) /\ flag l (state m) = x.

(** Successive fragments fed to the pipeline, the state carried over. *)
Fixpoint parse_all (highlight_syntax fn : string -> M Mem unit) (fuel : nat)
    (frags : list string) : M Mem unit :=
  match frags with
  | [] => ret tt
  | frag :: rest =>
      parse_code highlight_syntax fn fuel frag ;;
      parse_all highlight_syntax fn fuel rest
  end.

(** A callback that appends its fragment as the text of one [t] element. *)
Definition emit_text (t : string) (frag : string) : M Mem unit :=
  append (text_element t frag) false.

(** [a] at [p] is an element under the root and [d] is strictly inside it. *)
Definition inside (r : Node) (a d : Node) : Prop :=
  exists p q, p <> [] /\ q <> []
              /\ lookup p r = Some a /\ lookup (p ++ q) r = Some d.

(** The ancestry the canonical nesting forbids: italic around bold, bold
    around spoiler, and a spoiler inside anything that is not a formatting
    element (such as what the highlighter emits for a code span). *)
Definition canonical_ancestry (r : Node) : Prop :=
  forall a d, inside r a d ->
    ~ (tag a = "i" /\ tag d = "b")
    /\ ~ (tag a = "b" /\ tag d = "del")
    /\ ~ (rank (tag a) = 4 /\ tag d = "del").

(** No formatting element lies inside an element of its own tag. *)
Definition no_self_nesting (r : Node) : Prop :=
  forall a d, inside r a d -> rank (tag a) < 4 -> tag a <> tag d.

(** A state with bold and italic open under a [blockquote] root, as left
    by a bold and an italic delimiter. *)
Definition bold_italic_open : Mem :=
  mkMem (mkTextState false false false true true false 0 0 [[]; [0]; [0; 0]])
        (mkNode "blockquote" []
           [mkNode "b" [] [mkNode "i" [] [] None] None] None).

(** Partial-correctness readings of a command on the fields of the state
    other than the stack: it leaves them as they are, or it changes them
    as [F] does. *)
Definition keeps_flags (c : M Mem unit) : Prop :=
  forall m m', c m = Done tt m' -> flags_of (state m') = flags_of (state m).

Definition flag_spec (F : TextState -> TextState) (c : M Mem unit) : Prop :=
  forall m m', c m = Done tt m' -> flags_of (state m') = flags_of (F (state m)).

(** Total correctness triples on [M Mem unit]. *)
Definition hoare (P : Mem -> Prop) (c : M Mem unit) (Q : Mem -> Prop) : Prop :=
  forall m, P m -> exists m', c m = Done tt m' /\ Q m'.

(** ** File types *)

(** [enum class FileType : uint8_t], the enumerators in source order. *)
Inductive FileType : Type :=
| jpg | png | gif | webm | pdf | svg | mp4 | mp3 | ogg | zip | _7z
| targz | tarxz | flac | no_file | txt.

(** The value of an enumerator: none is given one, so they count from 0. *)
Definition file_type_value (t : FileType) : Z :=
  match t with
  | jpg => 0 | png => 1 | gif => 2 | webm => 3 | pdf => 4 | svg => 5
  | mp4 => 6 | mp3 => 7 | ogg => 8 | zip => 9 | _7z => 10 | targz => 11
  | tarxz => 12 | flac => 13 | no_file => 14 | txt => 15
  end.

(** The initializer list of [file_extentions], in source order. *)
Definition file_extentions : list (FileType * string) :=
  [ (jpg, "jpg"); (png, "png");
    (gif, "gif"); (webm, "webm");
    (pdf, "pdf"); (svg, "svg");
    (mp4, "mp4"); (mp3, "mp3");
    (ogg, "ogg"); (zip, "zip"); (_7z, "7z");
    (targz, "tar.gz"); (tarxz, "tar.xz");
    (flac, "flac"); (txt, "txt") ].

(** Lookup in an [unordered_map] built from an initializer list: of equal
    keys the first one inserted stays; [None] when the key is absent. *)
Fixpoint map_find (m : list (FileType * string)) (t : FileType)
    : option string :=
  match m with
  | [] => None
  | (k, v) :: rest =>
      if Z.eqb (file_type_value k) (file_type_value t) then Some v
      else map_find rest t
  end.

(** ** Further notions on scans and trees *)

(** A run of [n] quote characters. *)
Fixpoint quote_run (n : nat) : string :=
  match n with
  | O => EmptyString
  | S k => String ">" (quote_run k)
  end.

(** [ps] is what a scan for [sep] cuts: every piece but the last ends at
    the first occurrence of [sep] in what is left, and the last piece
    holds none. *)
Fixpoint scan_split (sep : string) (ps : list string) : Prop :=
  match ps with
  | [] => False
  | [p] => find p sep = None
  | p :: ps' =>
      find (join sep ps) sep = Some (String.length p) /\ scan_split sep ps'
  end.

(** Every node of [r] is still in [r'], at the same path and with the
    same tag, attributes and text, and has lost no child. *)
Definition grows (r r' : Node) : Prop :=
  forall q x, lookup q r = Some x ->
    exists x', lookup q r' = Some x'
               /\ tag x' = tag x /\ attrs x' = attrs x
               /\ inner_html x' = inner_html x
               /\ List.length (children x) <= List.length (children x').

(** A command that, whenever it returns, has only added to the tree. *)
Definition only_grows (c : M Mem unit) : Prop :=
  forall m m', c m = Done tt m' -> grows (root m) (root m').

Definition level_eqb (l l' : level) : bool :=
  match l, l' with
  | Code, Code | Spoiler, Spoiler | Bold, Bold | Italic, Italic => true
  | _, _ => false
  end.

(** How many toggles of level [l] a sequence holds. *)
Definition toggles_of (l : level) (ls : list level) : nat :=
  List.length (filter (level_eqb l) ls).

(** The flags after flipping, in turn, the flag of each level of [ls]. *)
Fixpoint flip_all (ls : list level) (s : TextState) : TextState :=
  match ls with
  | [] => s
  | l :: ls' => flip_all ls' (set_flag l (negb (flag l s)) s)
  end.

(** What the scanner of level [l] leaves alone in the state: the flags of
    the levels scanned before [l], the quote flag, the syncwatch flag and
    the two counters. *)
Definition frame (l : level) (s s' : TextState) : Prop :=
  outer_eq l s s'
  /\ quote s = quote s'
  /\ have_syncwatch s = have_syncwatch s'
  /\ successive_newlines s = successive_newlines s'
  /\ dice_index s = dice_index s'.

(** A command that, whenever it returns, has kept [R] between the states. *)
Definition keeps (R : TextState -> TextState -> Prop) (c : M Mem unit)
    : Prop :=
  forall m m', c m = Done tt m' -> R (state m) (state m').

(** Position of a level in the pipeline, outermost first. *)
Definition depth_of (l : level) : nat :=
  match l with Code => 0 | Spoiler => 1 | Bold => 2 | Italic => 3 end.

(** ** Counting elements and opening toggles *)

(** Number of elements tagged [t] in a node, the node included. *)
Fixpoint count_tag (t : string) (n : Node) : nat :=
  match n with
  | mkNode u _ cs _ =>
      Nat.b2n (String.eqb u t) + list_sum (map (count_tag t) cs)
  end.

(** The element a level wraps its span in; the code toggle appends none. *)
Definition level_tag (l : level) : option string :=
  match l with
  | Code => None
  | Spoiler => Some "del"
  | Bold => Some "b"
  | Italic => Some "i"
  end.

(** Elements tagged [t] that a toggle of level [l] appends in state [s]:
    the element of the level when it opens, and one per open inner level
    that it re-opens. *)
Definition toggle_gain (l : level) (t : string) (s : TextState) : nat :=
  match l with
  | Code => 0
  | Spoiler =>
      (if spoiler s then 0 else Nat.b2n (String.eqb "del" t))
      + (if bold s then Nat.b2n (String.eqb "b" t) else 0)
      + (if italic s then Nat.b2n (String.eqb "i" t) else 0)
  | Bold =>
      (if bold s then 0 else Nat.b2n (String.eqb "b" t))
      + (if italic s then Nat.b2n (String.eqb "i" t) else 0)
  | Italic => if italic s then 0 else Nat.b2n (String.eqb "i" t)
  end.

(** Among [k] toggles in a row of a flag that starts as [x], how many
    find it clear, and so open a span. *)
Fixpoint opens (x : bool) (k : nat) : nat :=
  match k with
  | O => 0
  | S k' => Nat.b2n (negb x) + opens (negb x) k'
  end.

(** Under the root, whatever lies inside an element is a non-formatting
    element or a formatting element of a higher rank: del holds b and i,
    b holds i, and no formatting element lies inside one of its own tag,
    inside one of a higher rank or inside a non-formatting element. *)
Definition strict_nesting (r : Node) : Prop :=
  forall a d, inside r a d ->
    rank (tag d) = 4 \/ rank (tag a) < rank (tag d).

(** What [parse_code] does with one piece, by the value of the code flag:
    the highlighter on the stripped piece, or the inner scanners. *)
Definition code_piece (highlight_syntax fn : string -> M Mem unit)
    (fuel : nat) (c : bool) (p : string) : M Mem unit :=
  if c then highlight_syntax (strip_quotes p) else parse_spoilers fn fuel p.

(** The pieces of a fragment cut at the code delimiters, handled in turn
    inside and outside code, starting with the code flag as [c]. *)
Fixpoint code_run (highlight_syntax fn : string -> M Mem unit) (fuel : nat)
    (c : bool) (ps : list string) : M Mem unit :=
  match ps with
  | [] => ret tt
  | [p] => code_piece highlight_syntax fn fuel c p
  | p :: ps' =>
      code_piece highlight_syntax fn fuel c p ;;
      toggle_code ;;
      code_run highlight_syntax fn fuel (negb c) ps'
  end.

(** A command that, whenever it returns, has kept [R] between the start
    and the end. *)
Definition keeps_mem (R : Mem -> Mem -> Prop) (c : M Mem unit) : Prop :=
  forall m m', c m = Done tt m' -> R m m'.

(** Nothing of the levels scanned before [l] has changed: their flags,
    the other fields of the state, and the number of their elements. *)
Definition outer_kept (l : level) (m m' : Mem) : Prop :=
  frame l (state m) (state m')
  /\ forall l0 t, depth_of l0 < depth_of l -> level_tag l0 = Some t ->
                  count_tag t (root m') = count_tag t (root m).

(** The state is as it was and no del, b or i element was added. *)
Definition quiet (m m' : Mem) : Prop :=
  state m' = state m
  /\ forall t, rank t < 4 -> count_tag t (root m') = count_tag t (root m).

(** ** Facts on strings *)

Lemma substring_all (s : string) : String.substring 0 (String.length s) s = s.
Proof. induction s; simpl; congruence. Qed.

Lemma substring_length (s : string) (n m : nat) :
  String.length (String.substring n m s) = Nat.min m (String.length s - n).
Proof.
  revert n m; induction s as [|c s IH]; intros [|n] [|m]; simpl; auto.
  - now rewrite IH, Nat.sub_0_r.
Qed.

Lemma prefix_length (p s : string) :
  String.prefix p s = true -> String.length p <= String.length s.
Proof.
  revert s; induction p as [|c p IH]; intros [|d s]; simpl; try lia; try discriminate.
  destruct (ascii_dec c d); [|discriminate].
  intros H; apply IH in H; lia.
Qed.

Lemma find_bound (frag sep : string) (i : nat) :
  find frag sep = Some i -> i + String.length sep <= String.length frag.
Proof.
  revert i; induction frag as [|c frag IH]; intros i; cbn [find].
  - destruct sep; simpl; [intros H; inversion H; simpl; lia | discriminate].
  - destruct (String.prefix sep (String c frag)) eqn:P.
    + intros H; inversion H; subst. apply prefix_length in P. simpl in *. lia.
    + destruct (find frag sep) as [j|]; simpl; [|discriminate].
      intros H; inversion H; subst. specialize (IH j eq_refl). lia.
Qed.

Lemma substr_from_shorter (frag sep : string) (i : nat) :
  sep <> EmptyString ->
  find frag sep = Some i ->
  String.length (substr_from frag (i + String.length sep)) < String.length frag.
Proof.
  intros Hsep Hf. apply find_bound in Hf.
  unfold substr_from. rewrite substring_length.
  destruct sep; [congruence|]. simpl in *. lia.
Qed.

Lemma substr_from_length (frag sep : string) (i : nat) :
  find frag sep = Some i ->
  String.length (substr_from frag (i + String.length sep))
  = String.length frag - (i + String.length sep).
Proof.
  intros Hf. unfold substr_from. rewrite substring_length. lia.
Qed.

Lemma find_cons (x : ascii) (tl sep : string) :
  find (String x tl) sep
  = if String.prefix sep (String x tl) then Some 0
    else option_map S (find tl sep).
Proof. reflexivity. Qed.

(** One step of the scan, as seen on [split2]. *)
Lemma find_split2 (a b : ascii) (frag : string) :
  match find frag (sep2 a b) with
  | Some i =>
      split2 a b frag
      = substr frag 0 i :: split2 a b (substr_from frag (i + 2))
  | None => split2 a b frag = [frag]
  end.
Proof.
  induction frag as [|x tl IH]; [reflexivity|].
  destruct tl as [|y rest].
  - simpl. destruct (ascii_dec a x); reflexivity.
  - rewrite find_cons.
    destruct (String.prefix (sep2 a b) (String x (String y rest))) eqn:P.
    + simpl in P.
      destruct (ascii_dec a x) as [->|]; [|discriminate].
      destruct (ascii_dec b y) as [->|]; [|discriminate].
      cbn [split2]. rewrite !Ascii.eqb_refl. simpl.
      unfold substr_from. simpl. now rewrite Nat.sub_0_r, substring_all.
    + assert (E : Ascii.eqb x a && Ascii.eqb y b = false).
      { apply not_true_is_false. intros T.
        apply andb_true_iff in T. destruct T as [T1 T2].
        apply Ascii.eqb_eq in T1, T2. subst. cbn in P.
        destruct (ascii_dec a a); [|congruence].
        destruct (ascii_dec b b); [|congruence].
        destruct rest; discriminate. }
      change (split2 a b (String x (String y rest)))
        with (if Ascii.eqb x a && Ascii.eqb y b
              then EmptyString :: split2 a b rest
              else cons_first x (split2 a b (String y rest))).
      rewrite E.
      revert IH.
      destruct (find (String y rest) (sep2 a b)) as [i|]; intros IH;
        cbn [option_map]; rewrite IH; reflexivity.
Qed.

Lemma split2_nonempty (a b : ascii) (frag : string) : split2 a b frag <> [].
Proof.
  pose proof (find_split2 a b frag) as H.
  destruct (find frag (sep2 a b)); rewrite H; discriminate.
Qed.

Lemma cons_first_length (x : ascii) (ps : list string) :
  ps <> [] -> List.length (cons_first x ps) = List.length ps.
Proof. destruct ps; [congruence|reflexivity]. Qed.

Lemma split2_length (a b : ascii) (n : nat) :
  forall frag, String.length frag < n ->
  List.length (split2 a b frag) = S (occurrences a b frag).
Proof.
  induction n as [|n IH]; intros frag Hn; [lia|].
  destruct frag as [|x [|y rest]]; try reflexivity.
  change (split2 a b (String x (String y rest)))
    with (if Ascii.eqb x a && Ascii.eqb y b
          then EmptyString :: split2 a b rest
          else cons_first x (split2 a b (String y rest))).
  change (occurrences a b (String x (String y rest)))
    with (if Ascii.eqb x a && Ascii.eqb y b
          then S (occurrences a b rest)
          else occurrences a b (String y rest)).
  simpl in Hn.
  destruct (Ascii.eqb x a && Ascii.eqb y b).
  - simpl. rewrite IH by lia. reflexivity.
  - rewrite cons_first_length by apply split2_nonempty.
    apply IH. simpl. lia.
Qed.

Lemma split2_count (a b : ascii) (frag : string) :
  List.length (split2 a b frag) - 1 = occurrences a b frag.
Proof.
  rewrite (@split2_length a b (S (String.length frag))) by lia. lia.
Qed.

(** The scan equals the run over the pieces, for any state and callbacks. *)
Lemma parse_string_split {S} (a b : ascii) (filler : string -> M S unit)
    (on_match : M S unit) (fuel : nat) :
  forall frag, String.length frag < fuel ->
  parse_string fuel frag (sep2 a b) filler on_match
  = run_pieces filler on_match (split2 a b frag).
Proof.
  induction fuel as [|fuel IH]; intros frag Hlen; [lia|].
  cbn [parse_string].
  pose proof (find_split2 a b frag) as Hs.
  destruct (find frag (sep2 a b)) as [i|] eqn:Hf.
  - rewrite Hs. cbn [run_pieces].
    pose proof (split2_nonempty a b (substr_from frag (i + 2))) as Hne.
    destruct (split2 a b (substr_from frag (i + 2))) as [|q qs] eqn:Hq;
      [congruence|].
    rewrite <- Hq. change (String.length (sep2 a b)) with 2.
    rewrite IH; [reflexivity|].
    pose proof (@substr_from_shorter frag (sep2 a b) i) as Hsh.
    change (String.length (sep2 a b)) with 2 in Hsh.
    assert (sep2 a b <> EmptyString) by discriminate.
    specialize (Hsh H Hf). lia.
  - rewrite Hs. reflexivity.
Qed.


(** ** Facts on vectors and on indexed updates *)

Lemma back_app_cons {A} (l : list A) (x : A) (t : list A) :
  back (l ++ x :: t) = back (x :: t).
Proof.
  induction l as [|y l IH]; [reflexivity|].
  simpl app. rewrite <- IH. simpl. destruct (l ++ x :: t) eqn:E; [|reflexivity].
  destruct l; discriminate.
Qed.

Lemma removelast_app_cons {A} (l : list A) (x : A) (t : list A) :
  removelast (l ++ x :: t) = l ++ removelast (x :: t).
Proof. apply removelast_app. discriminate. Qed.

Lemma nth_error_set_nth_eq {A} (l : list A) (i : nat) (x y : A) :
  nth_error l i = Some y -> nth_error (set_nth i x l) i = Some x.
Proof.
  revert i; induction l as [|z l IH]; intros [|i]; simpl; try discriminate; auto.
Qed.

Lemma nth_error_set_nth_neq {A} (l : list A) (i j : nat) (x : A) :
  i <> j -> nth_error (set_nth i x l) j = nth_error l j.
Proof.
  revert i j; induction l as [|z l IH]; intros [|i] [|j] H; simpl; auto.
  congruence.
Qed.

Lemma forallb_set_nth {A} (f : A -> bool) (l : list A) (i : nat) (x : A) :
  forallb f l = true -> f x = true -> forallb f (set_nth i x l) = true.
Proof.
  revert i; induction l as [|z l IH]; intros [|i] Hl Hx; simpl in *; auto.
  - apply andb_true_iff in Hl. destruct Hl as [_ Hl]. now rewrite Hx.
  - apply andb_true_iff in Hl. destruct Hl as [Hz Hl]. rewrite Hz. simpl. auto.
Qed.

Lemma forallb_nth_error {A} (f : A -> bool) (l : list A) (i : nat) (x : A) :
  forallb f l = true -> nth_error l i = Some x -> f x = true.
Proof.
  intros Hl Hx. rewrite forallb_forall in Hl. apply Hl.
  eapply nth_error_In; eauto.
Qed.

(** ** Facts on the tree *)

Lemma lookup_graft_tag (p : path) (c : Node) :
  forall r q x, lookup q r = Some x ->
  exists x', lookup q (graft p c r) = Some x' /\ tag x' = tag x.
Proof.
  induction p as [|i p IH]; intros r q x H.
  - destruct q as [|j q]; simpl in *.
    + inversion H; subst. eexists; split; reflexivity.
    + destruct (nth_error (children r) j) as [ch|] eqn:E; [|discriminate].
      rewrite nth_error_app1 by (apply nth_error_Some; congruence).
      rewrite E. eauto.
  - simpl. destruct (nth_error (children r) i) as [ch|] eqn:E; [|eauto].
    destruct q as [|j q]; simpl in *.
    + inversion H; subst. eexists; split; reflexivity.
    + destruct (Nat.eq_dec i j) as [->|Hne].
      * rewrite E in H. rewrite (nth_error_set_nth_eq _ _ _ E). now apply IH.
      * rewrite nth_error_set_nth_neq by assumption.
        destruct (nth_error (children r) j); [eauto|discriminate].
Qed.

Lemma tag_at_graft (p : path) (c r : Node) (q : path) (t : string) :
  tag_at r q = Some t -> tag_at (graft p c r) q = Some t.
Proof.
  unfold tag_at. destruct (lookup q r) as [x|] eqn:E; [|discriminate].
  intros H. destruct (lookup_graft_tag p c _ _ E) as (x' & -> & Ht).
  simpl in *. congruence.
Qed.

Lemma lookup_graft_new (p : path) (c : Node) :
  forall r x, lookup p r = Some x ->
  lookup (p ++ [List.length (children x)]) (graft p c r) = Some c.
Proof.
  induction p as [|i p IH]; intros r x H; simpl in *.
  - inversion H; subst.
    rewrite nth_error_app2 by lia. now rewrite Nat.sub_diag.
  - destruct (nth_error (children r) i) as [ch|] eqn:E; [|discriminate].
    simpl. rewrite (nth_error_set_nth_eq _ _ _ E). now apply IH.
Qed.

Lemma lvl_ok_mono (k k' r : nat) :
  k' <= k -> lvl_ok k r = true -> lvl_ok k' r = true.
Proof.
  unfold lvl_ok. intros Hk H. apply orb_true_iff in H. apply orb_true_iff.
  destruct H as [H|H]; [now left|right].
  apply Nat.ltb_lt in H. apply Nat.ltb_lt. lia.
Qed.

Lemma wf_mono (k k' : nat) (n : Node) :
  k' <= k -> wf k n = true -> wf k' n = true.
Proof.
  destruct n as [t a cs h]; simpl. intros Hk H.
  apply andb_true_iff in H. destruct H as [H1 H2].
  rewrite (lvl_ok_mono _ Hk H1). exact H2.
Qed.

Lemma rank_le_4 (t : string) : rank t <= 4.
Proof.
  unfold rank.
  destruct (String.eqb t "del"); [lia|].
  destruct (String.eqb t "b"); [lia|].
  destruct (String.eqb t "i"); lia.
Qed.

Lemma wf_unfold (k : nat) (n : Node) :
  wf k n = lvl_ok k (rank (tag n)) && forallb (wf (rank (tag n))) (children n).
Proof. destruct n; reflexivity. Qed.

(** Grafting a node that fits the context it lands in keeps a node
    well nested. *)
Lemma wf_graft (p : path) (c : Node) :
  forall x n k, wf k x = true -> lookup p x = Some n ->
  wf (rank (tag n)) c = true -> wf k (graft p c x) = true.
Proof.
  induction p as [|i p IH]; intros x n k Hx Hl Hc; cbn [graft lookup] in *.
  - inversion Hl; subst. rewrite wf_unfold in Hx. rewrite wf_unfold. simpl.
    apply andb_true_iff in Hx. destruct Hx as [H1 H2].
    rewrite H1, forallb_app, H2. simpl. now rewrite Hc.
  - destruct (nth_error (children x) i) as [ch|] eqn:E; [|discriminate].
    rewrite wf_unfold in Hx. rewrite wf_unfold. simpl.
    apply andb_true_iff in Hx. destruct Hx as [H1 H2].
    rewrite H1. simpl. apply forallb_set_nth; [assumption|].
    eapply IH; eauto. eapply forallb_nth_error; eauto.
Qed.

Lemma wf_root_graft (p : path) (c r n : Node) :
  wf_root r = true -> lookup p r = Some n ->
  wf 0 c = true -> (p = [] \/ wf (rank (tag n)) c = true) ->
  wf_root (graft p c r) = true.
Proof.
  unfold wf_root. intros Hr Hl H0 Hc. destruct p as [|i p]; simpl in *.
  - rewrite forallb_app, Hr. simpl. now rewrite H0.
  - destruct Hc as [Hc|Hc]; [discriminate|].
    destruct (nth_error (children r) i) as [ch|] eqn:E; [|discriminate].
    simpl. apply forallb_set_nth; [assumption|].
    eapply wf_graft; eauto. eapply forallb_nth_error; eauto.
Qed.

Lemma plain_fits (k : nat) (c : Node) : plain c = true -> wf k c = true.
Proof.
  unfold plain. intros H. rewrite wf_unfold in *.
  apply andb_true_iff in H. destruct H as [H1 H2]. rewrite H2.
  unfold lvl_ok in *. apply orb_true_iff in H1. destruct H1 as [H1|H1].
  - now rewrite H1.
  - apply Nat.ltb_lt in H1. pose proof (rank_le_4 (tag c)). lia.
Qed.

(** Under a well-nested root, a descendant is a non-formatting element or
    has a rank above that of each of its ancestors. *)
Lemma wf_descendant (q : path) :
  forall x d k, wf k x = true -> lookup q x = Some d -> q <> [] ->
  rank (tag d) = 4 \/ rank (tag x) < rank (tag d).
Proof.
  induction q as [|i q IH]; intros x d k Hx Hl Hq; [congruence|].
  simpl in Hl. destruct (nth_error (children x) i) as [ch|] eqn:E; [|discriminate].
  rewrite wf_unfold in Hx. apply andb_true_iff in Hx. destruct Hx as [_ Hcs].
  pose proof (forallb_nth_error _ _ _ Hcs E) as Hch.
  assert (Hstep : rank (tag ch) = 4 \/ rank (tag x) < rank (tag ch)).
  { rewrite wf_unfold in Hch. apply andb_true_iff in Hch. destruct Hch as [H _].
    unfold lvl_ok in H. apply orb_true_iff in H. destruct H as [H|H].
    - left. now apply Nat.eqb_eq.
    - right. now apply Nat.ltb_lt. }
  destruct q as [|j q'].
  - simpl in Hl. inversion Hl; subst. exact Hstep.
  - destruct (IH ch d _ Hch Hl) as [H|H]; [discriminate|now left|].
    pose proof (rank_le_4 (tag d)). lia.
Qed.

Lemma lookup_app (p q : path) :
  forall r a, lookup p r = Some a -> lookup (p ++ q) r = lookup q a.
Proof.
  induction p as [|i p IH]; intros r a H; simpl in *.
  - now inversion H.
  - destruct (nth_error (children r) i); [auto|discriminate].
Qed.

Lemma wf_lookup (p : path) :
  forall x a k, wf k x = true -> lookup p x = Some a -> exists k', wf k' a = true.
Proof.
  induction p as [|i p IH]; intros x a k Hx Hl; simpl in *.
  - inversion Hl; subst; eauto.
  - destruct (nth_error (children x) i) as [ch|] eqn:E; [|discriminate].
    rewrite wf_unfold in Hx. apply andb_true_iff in Hx. destruct Hx as [_ Hcs].
    eapply IH; eauto. eapply forallb_nth_error; eauto.
Qed.

(** The ancestry fact on a well-nested root, for elements under the root. *)
Lemma wf_root_ancestry (r a d : Node) (p q : path) :
  wf_root r = true -> p <> [] -> q <> [] ->
  lookup p r = Some a -> lookup (p ++ q) r = Some d ->
  rank (tag d) = 4 \/ rank (tag a) < rank (tag d).
Proof.
  intros Hr Hp Hq Ha Hd.
  rewrite (lookup_app _ _ _ Ha) in Hd.
  destruct p as [|i p]; [congruence|]. simpl in Ha.
  destruct (nth_error (children r) i) as [ch|] eqn:E; [|discriminate].
  pose proof (forallb_nth_error _ _ _ Hr E) as Hch.
  destruct (@wf_lookup p ch a 0 Hch Ha) as (k' & Hk').
  eapply wf_descendant; eauto.
Qed.

(** ** The primitive operations on a shaped stack *)

Lemma ascend_step (m : Mem) (l : list path) (x : path) (t : list path) :
  parents (state m) = l ++ x :: t ->
  ascend m
  = Done tt (mkMem (set_parents (l ++ removelast (x :: t)) (state m)) (root m)).
Proof.
  intros H. unfold ascend. rewrite H, removelast_app_cons.
  destruct l; reflexivity.
Qed.

Lemma append_descend (m : Mem) (l : list path) (x : path) (t : list path)
    (p : path) (tp : string) (c : Node) :
  parents (state m) = l ++ x :: t ->
  back (x :: t) = Some p ->
  tag_at (root m) p = Some tp ->
  exists r' j,
    append c true m
    = Done tt (mkMem (set_parents (l ++ x :: t ++ [p ++ [j]]) (state m)) r')
    /\ (forall q tq, tag_at (root m) q = Some tq -> tag_at r' q = Some tq)
    /\ tag_at r' (p ++ [j]) = Some (tag c)
    /\ (wf_root (root m) = true ->
        wf 0 c = true /\ (p = [] \/ wf (rank tp) c = true) ->
        wf_root r' = true).
Proof.
  intros Hps Hb Ht. unfold append. rewrite Hps, back_app_cons, Hb.
  unfold tag_at in Ht.
  destruct (lookup p (root m)) as [n|] eqn:E; [|discriminate].
  simpl in Ht. inversion Ht; subst tp.
  exists (graft p c (root m)), (List.length (children n)).
  split; [|split; [|split]].
  - now rewrite <- app_assoc.
  - intros q tq. apply tag_at_graft.
  - unfold tag_at. now rewrite (lookup_graft_new _ c _ E).
  - intros Hr [H0 Hc]. eapply wf_root_graft; eauto.
Qed.

Lemma append_leaf (m : Mem) (p : path) (tp : string) (c : Node) :
  back (parents (state m)) = Some p ->
  tag_at (root m) p = Some tp ->
  plain c = true ->
  exists r',
    append c false m = Done tt (mkMem (state m) r')
    /\ (forall q tq, tag_at (root m) q = Some tq -> tag_at r' q = Some tq)
    /\ (wf_root (root m) = true -> wf_root r' = true).
Proof.
  intros Hb Ht Hc. unfold append. rewrite Hb.
  unfold tag_at in Ht.
  destruct (lookup p (root m)) as [n|] eqn:E; [|discriminate].
  exists (graft p c (root m)). split; [reflexivity|split].
  - intros q tq. apply tag_at_graft.
  - intros Hr. eapply wf_root_graft; eauto using plain_fits.
Qed.

Lemma chain_transport (r r' : Node) :
  (forall q t, tag_at r q = Some t -> tag_at r' q = Some t) ->
  forall tags p0 ps, chain r p0 tags ps -> chain r' p0 tags ps.
Proof.
  intros Hpres. induction tags as [|t ts IH]; intros p0 [|q qs]; simpl; auto.
  intros (Hj & Ht & Hc). auto.
Qed.

Lemma chain_back (r : Node) :
  forall tags p0 ps, chain r p0 tags ps ->
  (exists t, tag_at r p0 = Some t) ->
  exists p t, back (p0 :: ps) = Some p /\ tag_at r p = Some t.
Proof.
  induction tags as [|t ts IH]; intros p0 [|q qs]; simpl; try contradiction.
  - intros _ (t0 & Ht0). eauto.
  - intros (Hj & Ht & Hc) _. destruct (IH q qs Hc) as (p & tp & Hb & Hp); eauto.
Qed.

Lemma chain_length (r : Node) :
  forall tags p0 ps, chain r p0 tags ps -> List.length ps = List.length tags.
Proof.
  induction tags as [|t ts IH]; intros p0 [|q qs]; simpl; try contradiction; auto.
  intros (_ & _ & Hc). f_equal. eauto.
Qed.

Lemma shape_transport (base : list path) (p0 : path) (m m' : Mem) :
  state m' = state m ->
  (forall q t, tag_at (root m) q = Some t -> tag_at (root m') q = Some t) ->
  shape base p0 m -> shape base p0 m'.
Proof.
  intros Hs Hpres (ps & Hps & (t0 & Ht0) & Hc).
  exists ps. rewrite Hs. split; [assumption|split].
  - eauto.
  - eapply chain_transport; eauto.
Qed.

Lemma shape_depth (base : list path) (p0 : path) (m : Mem) :
  shape base p0 m ->
  List.length (parents (state m))
  = List.length base + 1 + open_count (state m).
Proof.
  intros (ps & Hps & _ & Hc). rewrite Hps.
  rewrite length_app. simpl. rewrite (chain_length _ _ _ _ Hc).
  unfold open_tags, open_count.
  destruct (spoiler (state m)), (bold (state m)), (italic (state m)); simpl; lia.
Qed.

(** A run of leaf appends keeps the state, the tags and the nesting. *)
Lemma append_all_good (base : list path) (p0 : path) (w : bool)
    (ns : list Node) :
  Forall (fun n => plain n = true) ns ->
  forall m, good base p0 w m ->
  exists m', append_all ns m = Done tt m'
             /\ state m' = state m /\ good base p0 w m'
             /\ (forall q t, tag_at (root m) q = Some t ->
                            tag_at (root m') q = Some t).
Proof.
  induction 1 as [|c ns Hc Hns IH]; intros m Hm.
  - exists m. auto.
  - destruct Hm as [Hsh Hw].
    pose proof Hsh as (ps & Hps & Hp0 & Hch).
    destruct (chain_back _ _ _ _ Hch Hp0) as (p & tp & Hb & Hp).
    rewrite <- (back_app_cons base), <- Hps in Hb.
    destruct (append_leaf m c Hb Hp Hc) as (r' & E & Hpres & Hwf).
    destruct (IH (mkMem (state m) r')) as (m' & E' & Hst & Hg & Hkeep).
    { split.
      - eapply shape_transport; [| |exact Hsh]; simpl; auto.
      - intros W. destruct (Hw W). auto. }
    exists m'. simpl. unfold bind. rewrite E. simpl in *.
    split; [assumption|]. split; [assumption|]. split; [assumption|].
    intros q t Hq. auto.
Qed.

(** ** The toggles on a shaped stack *)

Lemma chain_cons (r : Node) (p0 : path) (t : string) (ts : list string)
    (ps : list path) :
  chain r p0 (t :: ts) ps ->
  exists q qs j,
    ps = q :: qs /\ q = p0 ++ [j] /\ tag_at r q = Some t /\ chain r q ts qs.
Proof.
  destruct ps as [|q qs]; simpl; [contradiction|].
  intros ((j & Hj) & Ht & Hc). exists q, qs, j. auto.
Qed.

Lemma chain_nil (r : Node) (p0 : path) (ps : list path) :
  chain r p0 [] ps -> ps = [].
Proof. destruct ps; simpl; [reflexivity|contradiction]. Qed.

Ltac open_chain H :=
  cbn [app] in H;
  repeat match type of H with
  | chain _ _ (_ :: _) _ =>
      apply chain_cons in H;
      let Ht := fresh "Ht" in
      destruct H as (? & ? & ? & -> & -> & Ht & H)
  | chain _ _ [] _ => apply chain_nil in H; subst
  end.

Arguments tag_at : simpl never.

Ltac transport :=
  repeat match goal with
  | H : tag_at ?r ?q = Some ?t,
    Hp : forall q tq, tag_at ?r q = Some tq -> _ |- _ => apply Hp in H
  end.

Ltac step_ascend :=
  match goal with
  | |- context [ascend ?M] =>
      erewrite (@ascend_step M) by (cbn; reflexivity); cbn
  end.

Ltac step_append :=
  match goal with
  | |- context [append ?nd true ?M] =>
      let r' := fresh "r" in
      let j := fresh "j" in
      let E := fresh "E" in
      let Hp := fresh "Hpres" in
      let Hn := fresh "Hnew" in
      let Hw := fresh "Hwf" in
      edestruct (@append_descend M) with (c := nd)
        as (r' & j & E & Hp & Hn & Hw);
      [ cbn; reflexivity | cbn; reflexivity | cbn [root]; eassumption | ];
      rewrite E; clear E; cbn [root tag element] in Hp, Hn, Hw; cbn;
      transport; clear Hp
  end.

Ltac close_good Hw :=
  split;
  [ eexists; split; [cbn; reflexivity|]; split; [eauto|];
    unfold open_tags; cbn; repeat split; eauto
  | let W := fresh "W" in
    intros W; destruct (Hw W) as [? ?]; split; [assumption|];
    repeat match goal with
    | Hwf : wf_root ?a = true -> _ -> wf_root ?b = true
      |- wf_root ?b = true =>
        apply Hwf;
        [|split; [reflexivity|first [left; assumption|right; reflexivity]]]
    end; assumption ].

Ltac run_toggle :=
  repeat step_ascend; repeat step_append;
  eexists; split; [reflexivity|split; [reflexivity|]].

Lemma toggle_spoiler_good (base : list path) (p0 : path) (w : bool) (m : Mem) :
  good base p0 w m ->
  exists m',
    toggle_spoiler m = Done tt m'
    /\ flags_of (state m')
       = flags_of (set_spoiler (negb (spoiler (state m))) (state m))
    /\ good base p0 w m'.
Proof.
  destruct m as [[s q c b i hs sn di ps] r].
  intros [(qs & Hps & (t0 & Ht0) & Hch) Hw]. cbn in *. subst ps.
  unfold open_tags in Hch. cbn [spoiler bold italic] in Hch.
  unfold toggle_spoiler, bind, get, when, modify, ret.
  destruct s, b, i; open_chain Hch; cbn; run_toggle; close_good Hw.
Qed.

Lemma toggle_bold_good (base : list path) (p0 : path) (w : bool) (m : Mem) :
  good base p0 w m ->
  exists m',
    toggle_bold m = Done tt m'
    /\ flags_of (state m')
       = flags_of (set_bold (negb (bold (state m))) (state m))
    /\ good base p0 w m'.
Proof.
  destruct m as [[s q c b i hs sn di ps] r].
  intros [(qs & Hps & (t0 & Ht0) & Hch) Hw]. cbn in *. subst ps.
  unfold open_tags in Hch. cbn [spoiler bold italic] in Hch.
  unfold toggle_bold, bind, get, when, modify, ret.
  destruct s, b, i; open_chain Hch; cbn; run_toggle; close_good Hw.
Qed.

Lemma toggle_italic_good (base : list path) (p0 : path) (w : bool) (m : Mem) :
  good base p0 w m ->
  exists m',
    toggle_italic m = Done tt m'
    /\ flags_of (state m')
       = flags_of (set_italic (negb (italic (state m))) (state m))
    /\ good base p0 w m'.
Proof.
  destruct m as [[s q c b i hs sn di ps] r].
  intros [(qs & Hps & (t0 & Ht0) & Hch) Hw]. cbn in *. subst ps.
  unfold open_tags in Hch. cbn [spoiler bold italic] in Hch.
  unfold toggle_italic, bind, get, when, modify, ret.
  destruct s, b, i; open_chain Hch; cbn; run_toggle; close_good Hw.
Qed.

Lemma toggle_code_good (base : list path) (p0 : path) (w : bool) (m : Mem) :
  good base p0 w m ->
  exists m',
    toggle_code m = Done tt m'
    /\ flags_of (state m')
       = flags_of (set_code (negb (code (state m))) (state m))
    /\ good base p0 w m'.
Proof.
  intros [Hsh Hw]. eexists; split; [reflexivity|split; [reflexivity|]].
  split; [|exact Hw].
  destruct Hsh as (ps & Hps & Hp0 & Hch). exists ps. auto.
Qed.

(** ** Runs over pieces *)

Lemma split2_piece_length (a b : ascii) (n : nat) :
  forall frag p, String.length frag < n -> In p (split2 a b frag) ->
  String.length p <= String.length frag.
Proof.
  induction n as [|n IH]; intros frag p Hn Hin; [lia|].
  pose proof (find_split2 a b frag) as Hs.
  destruct (find frag (sep2 a b)) as [i|] eqn:Hf.
  - rewrite Hs in Hin. destruct Hin as [<-|Hin].
    + unfold substr. rewrite substring_length. lia.
    + pose proof (@substr_from_shorter frag (sep2 a b) i) as Hsh.
      change (String.length (sep2 a b)) with 2 in Hsh.
      assert (Hne : sep2 a b <> EmptyString) by discriminate.
      specialize (Hsh Hne Hf).
      assert (String.length p <= String.length (substr_from frag (i + 2)))
        by (apply IH; [lia|assumption]).
      lia.
  - rewrite Hs in Hin. destruct Hin as [<-|[]]. lia.
Qed.

Lemma hoare_bind (P Q R : Mem -> Prop) (c1 c2 : M Mem unit) :
  hoare P c1 Q -> hoare Q c2 R -> hoare P (c1 ;; c2) R.
Proof.
  intros H1 H2 m Hm. destruct (H1 m Hm) as (m1 & E1 & Hq).
  destruct (H2 m1 Hq) as (m2 & E2 & Hr).
  exists m2. unfold bind. rewrite E1. auto.
Qed.

(** Over a run of pieces a flag flipped by the toggle and kept by the
    filler ends up flipped once per delimiter. *)
Lemma run_pieces_parity (I : bool -> Mem -> Prop)
    (filler : string -> M Mem unit) (on_match : M Mem unit) :
  forall ps,
  (forall x p, In p ps -> hoare (I x) (filler p) (I x)) ->
  (forall x, hoare (I x) on_match (I (negb x))) ->
  ps <> [] ->
  forall x,
    hoare (I x) (run_pieces filler on_match ps)
      (I (xorb x (Nat.odd (List.length ps - 1)))).
Proof.
  induction ps as [|p ps IH]; intros Hf Ht Hne x; [congruence|].
  destruct ps as [|p' ps].
  - simpl. rewrite xorb_false_r. apply Hf. now left.
  - change (run_pieces filler on_match (p :: p' :: ps))
      with (filler p ;; on_match ;; run_pieces filler on_match (p' :: ps)).
    eapply hoare_bind; [apply Hf; now left|].
    eapply hoare_bind; [apply Ht|].
    replace (xorb x (Nat.odd (List.length (p :: p' :: ps) - 1)))
      with (xorb (negb x) (Nat.odd (List.length (p' :: ps) - 1))).
    + apply IH; [|assumption|discriminate].
      intros y q Hq. apply Hf. now right.
    + simpl. rewrite Nat.sub_0_r.
      rewrite Nat.odd_succ, <- Nat.negb_odd.
      destruct x, (Nat.odd (List.length ps)); reflexivity.
Qed.

Lemma outer_eq_refl (l : level) (s : TextState) : outer_eq l s s.
Proof. destruct l; simpl; auto. Qed.

(** ** The scanners keep the invariant and count their delimiters *)

Section Scanners.

Variable highlight_syntax : string -> M Mem unit.
Variable fn : string -> M Mem unit.
Hypothesis highlight_plain : emits_plain highlight_syntax.
Hypothesis fn_plain : emits_plain fn.

Variable base : list path.
Variable p0 : path.
Variable w : bool.

Lemma leaf_inv (f : string -> M Mem unit) (l : level) (s0 : TextState)
    (x : bool) (frag : string) :
  emits_plain f ->
  hoare (inv_at base p0 w l s0 x) (f frag) (inv_at base p0 w l s0 x).
Proof.
  intros Hf m (Hg & Ho & Hx).
  destruct (Hf frag m) as (ns & Hns & E).
  destruct (append_all_good Hns Hg) as (m' & E' & Hst & Hg' & _).
  exists m'. rewrite E. split; [assumption|].
  unfold inv_at. rewrite Hst. auto.
Qed.

Lemma toggle_inv (l : level) (s0 : TextState) (x : bool) :
  hoare (inv_at base p0 w l s0 x) (toggle l)
    (inv_at base p0 w l s0 (negb x)).
Proof.
  intros m (Hg & Ho & Hx).
  destruct l; simpl toggle.
  - destruct (toggle_code_good Hg) as (m' & E & Hfl & Hg').
    exists m'. split; [assumption|]. split; [assumption|].
    apply (f_equal code) in Hfl. simpl in *. split; congruence.
  - destruct (toggle_spoiler_good Hg) as (m' & E & Hfl & Hg').
    exists m'. split; [assumption|]. split; [assumption|].
    pose proof (f_equal code Hfl). pose proof (f_equal spoiler Hfl).
    simpl in *. split; congruence.
  - destruct (toggle_bold_good Hg) as (m' & E & Hfl & Hg').
    exists m'. split; [assumption|]. split; [assumption|].
    pose proof (f_equal code Hfl). pose proof (f_equal spoiler Hfl).
    pose proof (f_equal bold Hfl).
    simpl in *. destruct Ho. repeat split; congruence.
  - destruct (toggle_italic_good Hg) as (m' & E & Hfl & Hg').
    exists m'. split; [assumption|]. split; [assumption|].
    pose proof (f_equal code Hfl). pose proof (f_equal spoiler Hfl).
    pose proof (f_equal bold Hfl). pose proof (f_equal italic Hfl).
    simpl in *. destruct Ho as (? & ? & ?). repeat split; congruence.
Qed.

(** A scanner, given that its filler keeps the invariant on the pieces. *)
Lemma scan_level (l : level) (a : ascii) (filler : string -> M Mem unit)
    (fuel : nat) (frag : string) (s0 : TextState) (x : bool) :
  String.length frag < fuel ->
  (forall y p, String.length p <= String.length frag ->
     hoare (inv_at base p0 w l s0 y) (filler p) (inv_at base p0 w l s0 y)) ->
  hoare (inv_at base p0 w l s0 x)
    (parse_string fuel frag (sep2 a a) filler (toggle l))
    (inv_at base p0 w l s0 (xorb x (Nat.odd (occurrences a a frag)))).
Proof.
  intros Hlen Hf. rewrite parse_string_split by assumption.
  rewrite <- split2_count.
  apply run_pieces_parity.
  - intros y p Hin. apply Hf.
    eapply split2_piece_length; eauto.
  - intros y. apply toggle_inv.
  - apply split2_nonempty.
Qed.

(** Weakening the result of an inner scanner to the level above. *)
Lemma inner_keeps (l l' : level) (c : M Mem unit) (s0 : TextState)
    (y : bool) :
  (forall s s', outer_eq l' s s' ->
     outer_eq l s0 s -> flag l s = y ->
     outer_eq l s0 s' /\ flag l s' = y) ->
  (forall s1 x1, exists x2,
     hoare (inv_at base p0 w l' s1 x1) c (inv_at base p0 w l' s1 x2)) ->
  hoare (inv_at base p0 w l s0 y) c (inv_at base p0 w l s0 y).
Proof.
  intros Hweak Hc m (Hg & Ho & Hx).
  destruct (Hc (state m) (flag l' (state m))) as (x2 & H).
  destruct (H m) as (m' & E & Hg' & Ho' & Hx').
  { split; [assumption|]. split; [apply outer_eq_refl|reflexivity]. }
  exists m'. split; [assumption|]. split; [assumption|].
  eapply Hweak; eauto.
Qed.

Lemma parse_italics_inv (fuel : nat) (frag : string) (s0 : TextState)
    (x : bool) :
  String.length frag < fuel ->
  hoare (inv_at base p0 w Italic s0 x) (parse_italics fn fuel frag)
    (inv_at base p0 w Italic s0
       (xorb x (Nat.odd (occurrences "~" "~" frag)))).
Proof.
  intros Hlen. unfold parse_italics.
  apply (@scan_level Italic "~"%char); [assumption|].
  intros y p _. now apply leaf_inv.
Qed.

Lemma parse_bolds_inv (fuel : nat) (frag : string) (s0 : TextState)
    (x : bool) :
  String.length frag < fuel ->
  hoare (inv_at base p0 w Bold s0 x) (parse_bolds fn fuel frag)
    (inv_at base p0 w Bold s0
       (xorb x (Nat.odd (occurrences "_" "_" frag)))).
Proof.
  intros Hlen. unfold parse_bolds.
  apply (@scan_level Bold "_"%char); [assumption|].
  intros y p Hp. apply inner_keeps with (l' := Italic).
  - simpl. intros s s' (? & ? & ?) (? & ?) ?. repeat split; congruence.
  - intros s1 x1. eexists. apply parse_italics_inv. lia.
Qed.

Lemma parse_spoilers_inv (fuel : nat) (frag : string) (s0 : TextState)
    (x : bool) :
  String.length frag < fuel ->
  hoare (inv_at base p0 w Spoiler s0 x) (parse_spoilers fn fuel frag)
    (inv_at base p0 w Spoiler s0
       (xorb x (Nat.odd (occurrences "*" "*" frag)))).
Proof.
  intros Hlen. unfold parse_spoilers.
  apply (@scan_level Spoiler "*"%char); [assumption|].
  intros y p Hp. apply inner_keeps with (l' := Bold).
  - simpl. intros s s' (? & ?) ? ?. split; congruence.
  - intros s1 x1. eexists. apply parse_bolds_inv. lia.
Qed.

Lemma code_filler_inv (fuel : nat) (frag : string) (s0 : TextState)
    (y : bool) :
  String.length frag < fuel ->
  hoare (inv_at base p0 w Code s0 y)
    (code_filler highlight_syntax fn fuel frag)
    (inv_at base p0 w Code s0 y).
Proof.
  intros Hlen m Hm. unfold code_filler, bind, get.
  destruct (code (state m)) eqn:Hc.
  - cbn. now apply leaf_inv.
  - revert m Hm Hc. intros m Hm Hc.
    assert (H : hoare (inv_at base p0 w Code s0 y)
                  (parse_spoilers fn fuel frag)
                  (inv_at base p0 w Code s0 y)).
    { apply inner_keeps with (l' := Spoiler).
      - simpl. intros s s' ? _ ?. split; [exact I|congruence].
      - intros s1 x1. eexists. now apply parse_spoilers_inv. }
    exact (H m Hm).
Qed.

Lemma parse_code_inv (fuel : nat) (frag : string) (s0 : TextState)
    (x : bool) :
  String.length frag < fuel ->
  hoare (inv_at base p0 w Code s0 x)
    (parse_code highlight_syntax fn fuel frag)
    (inv_at base p0 w Code s0
       (xorb x (Nat.odd (occurrences "`" "`" frag)))).
Proof.
  intros Hlen. unfold parse_code.
  apply (@scan_level Code "`"%char); [assumption|].
  intros y p Hp. apply code_filler_inv. lia.
Qed.

(** The four scanners at once. *)
Lemma scanner_inv (l : level) (fuel : nat) (frag : string)
    (s0 : TextState) (x : bool) :
  String.length frag < fuel ->
  hoare (inv_at base p0 w l s0 x) (scanner highlight_syntax fn l fuel frag)
    (inv_at base p0 w l s0
       (xorb x (Nat.odd (occurrences (delimiter l) (delimiter l) frag)))).
Proof.
  destruct l; simpl.
  - apply parse_code_inv.
  - apply parse_spoilers_inv.
  - apply parse_bolds_inv.
  - apply parse_italics_inv.
Qed.

End Scanners.

(** ** The scan primitive *)

Lemma join_cons_first (sep : string) (x : ascii) (ps : list string) :
  ps <> [] -> join sep (cons_first x ps) = String x (join sep ps).
Proof.
  destruct ps as [|p ps]; [congruence|]. intros _.
  destruct ps; reflexivity.
Qed.

Lemma join_split2 (a b : ascii) (n : nat) :
  forall frag, String.length frag < n ->
  join (sep2 a b) (split2 a b frag) = frag.
Proof.
  induction n as [|n IH]; intros frag Hn; [lia|].
  destruct frag as [|x [|y rest]]; try reflexivity.
  change (split2 a b (String x (String y rest)))
    with (if Ascii.eqb x a && Ascii.eqb y b
          then EmptyString :: split2 a b rest
          else cons_first x (split2 a b (String y rest))).
  simpl in Hn.
  destruct (Ascii.eqb x a && Ascii.eqb y b) eqn:E.
  - apply andb_true_iff in E. destruct E as [E1 E2].
    apply Ascii.eqb_eq in E1, E2. subst.
    pose proof (split2_nonempty a b rest) as Hne.
    destruct (split2 a b rest) as [|q qs] eqn:Hq; [congruence|].
    change (join (sep2 a b) (EmptyString :: q :: qs))
      with (String a (String b (join (sep2 a b) (q :: qs)))).
    rewrite <- Hq, IH by lia. reflexivity.
  - rewrite join_cons_first by apply split2_nonempty.
    rewrite IH by (simpl; lia). reflexivity.
Qed.

Lemma run_pieces_log :
  forall ps l0, ps <> [] ->
  run_pieces log_filler log_toggle ps l0 = Done tt (l0 ++ interleave ps).
Proof.
  induction ps as [|p ps IH]; intros l0 Hne; [congruence|].
  destruct ps as [|p' ps]; [reflexivity|].
  change (run_pieces log_filler log_toggle (p :: p' :: ps) l0)
    with (run_pieces log_filler log_toggle (p' :: ps)
            ((l0 ++ [Filler p]) ++ [Toggle])).
  rewrite IH by discriminate.
  rewrite <- !app_assoc. reflexivity.
Qed.

Lemma interleave_counts :
  forall ps, ps <> [] ->
  List.length (filter is_toggle (interleave ps)) = List.length ps - 1
  /\ List.length (filter (fun e => negb (is_toggle e)) (interleave ps))
     = List.length ps.
Proof.
  induction ps as [|p ps IH]; intros Hne; [congruence|].
  destruct ps as [|p' ps]; [split; reflexivity|].
  destruct IH as [IH1 IH2]; [discriminate|].
  change (interleave (p :: p' :: ps))
    with (Filler p :: Toggle :: interleave (p' :: ps)).
  cbn [filter is_toggle negb List.length].
  rewrite IH1, IH2. simpl. split; lia.
Qed.

(** C2.  For a two-character delimiter the scan of [parse_string] is the
    filler on the text before each delimiter, one toggle per delimiter and
    the filler on what remains: the first piece is the text before the
    first occurrence and the rest is the split of the text after it, or
    the whole fragment when there is none; with [k] occurrences counted
    left to right, the toggle runs [k] times and the filler [k + 1] times,
    on the [k + 1] pieces of the fragment split at the delimiters, in
    order. *)
Theorem parse_string_scan (a b : ascii) (frag : string) (fuel : nat) :
  String.length frag < fuel ->
  (forall (S : Type) (filler : string -> M S unit) (on_match : M S unit),
     parse_string fuel frag (sep2 a b) filler on_match
     = run_pieces filler on_match (split2 a b frag))
  /\ match find frag (sep2 a b) with
     | Some i =>
         split2 a b frag
         = substr frag 0 i :: split2 a b (substr_from frag (i + 2))
     | None => split2 a b frag = [frag]
     end
  /\ join (sep2 a b) (split2 a b frag) = frag
  /\ List.length (split2 a b frag) = occurrences a b frag + 1
  /\ exists log,
       parse_string fuel frag (sep2 a b) log_filler log_toggle [] = Done tt log
       /\ log = interleave (split2 a b frag)
       /\ List.length (filter is_toggle log) = occurrences a b frag
       /\ List.length (filter (fun e => negb (is_toggle e)) log)
          = occurrences a b frag + 1.
Proof.
  intros Hlen.
  pose proof (split2_nonempty a b frag) as Hne.
  assert (Hk : List.length (split2 a b frag) = occurrences a b frag + 1).
  { rewrite (@split2_length a b (Datatypes.S (String.length frag))) by lia.
    lia. }
  split; [|split; [|split; [|split]]].
  - intros S filler on_match. now apply parse_string_split.
  - apply find_split2.
  - apply (@join_split2 a b (Datatypes.S (String.length frag))). lia.
  - exact Hk.
  - exists (interleave (split2 a b frag)).
    destruct (interleave_counts Hne) as [H1 H2].
    rewrite parse_string_split, run_pieces_log by assumption.
    repeat split; lia.
Qed.

Lemma parse_string_scan_witness :
  String.length "a**b**" < 7
  /\ parse_string 7 "a**b**" (sep2 "*" "*") log_filler log_toggle []
     = Done tt [Filler "a"; Toggle; Filler "b"; Toggle; Filler ""].
Proof.
  split; [simpl; lia|].
  destruct (@parse_string_scan "*"%char "*"%char "a**b**" 7) as (H & _);
    [simpl; lia|].
  rewrite H. reflexivity.
Defined.

(** ** Termination of the scan *)

Lemma parse_string_log_done (sep : string) (fuel : nat) :
  sep <> EmptyString ->
  forall frag l0, String.length frag < fuel ->
  exists log,
    parse_string fuel frag sep log_filler log_toggle l0 = Done tt (l0 ++ log)
    /\ List.length log <= 2 * String.length frag + 1.
Proof.
  intros Hsep. induction fuel as [|fuel IH]; intros frag l0 Hlen; [lia|].
  cbn [parse_string]. destruct (find frag sep) as [i|] eqn:Hf.
  - pose proof (@substr_from_shorter frag sep i Hsep Hf) as Hsh.
    destruct (IH (substr_from frag (i + String.length sep))
                ((l0 ++ [Filler (substr frag 0 i)]) ++ [Toggle]))
      as (log & E & Hb); [lia|].
    exists (Filler (substr frag 0 i) :: Toggle :: log).
    unfold bind at 1. unfold log_filler at 1. unfold bind at 1.
    unfold log_toggle at 1. rewrite E. rewrite <- !app_assoc.
    split; [reflexivity|]. simpl. lia.
  - exists [Filler frag]. split; [reflexivity|]. simpl. lia.
Qed.

Lemma parse_string_no_timeout {S} (sep : string)
    (filler : string -> M S unit) (on_match : M S unit) (fuel : nat) :
  sep <> EmptyString ->
  (forall p s, filler p s <> OutOfFuel) ->
  (forall s, on_match s <> OutOfFuel) ->
  forall frag s, String.length frag < fuel ->
  parse_string fuel frag sep filler on_match s <> OutOfFuel.
Proof.
  intros Hsep Hfi Hto. induction fuel as [|fuel IH]; intros frag s Hlen; [lia|].
  cbn [parse_string]. destruct (find frag sep) as [i|] eqn:Hf; [|apply Hfi].
  pose proof (@substr_from_shorter frag sep i Hsep Hf) as Hsh.
  unfold bind.
  destruct (filler (substr frag 0 i) s) as [[] s1| |] eqn:E1;
    [|discriminate|now apply Hfi in E1].
  destruct (on_match s1) as [[] s2| |] eqn:E2;
    [|discriminate|now apply Hto in E2].
  apply IH. lia.
Qed.

(** C10.  For a non-empty separator the loop of [parse_string] terminates:
    each match leaves a remainder shorter by at least the length of the
    separator, so fuel above the length of the fragment is never used up,
    and the callbacks are invoked a bounded number of times. *)
Theorem parse_string_terminates (frag sep : string) (fuel : nat) :
  sep <> EmptyString ->
  String.length frag < fuel ->
  (forall i, find frag sep = Some i ->
     String.length (substr_from frag (i + String.length sep))
       + String.length sep <= String.length frag
     /\ String.length (substr_from frag (i + String.length sep))
        < String.length frag)
  /\ (forall (S : Type) (filler : string -> M S unit) (on_match : M S unit),
        (forall p s, filler p s <> OutOfFuel) ->
        (forall s, on_match s <> OutOfFuel) ->
        forall s, parse_string fuel frag sep filler on_match s <> OutOfFuel)
  /\ exists log,
       parse_string fuel frag sep log_filler log_toggle [] = Done tt log
       /\ List.length log <= 2 * String.length frag + 1.
Proof.
  intros Hsep Hlen. split; [|split].
  - intros i Hf. split.
    + rewrite (@substr_from_length frag sep i Hf). apply find_bound in Hf. lia.
    + now apply substr_from_shorter.
  - intros S filler on_match Hfi Hto s.
    now apply parse_string_no_timeout.
  - destruct (parse_string_log_done Hsep frag [] Hlen) as (log & E & Hb).
    exists log. auto.
Qed.

Lemma parse_string_terminates_witness :
  exists log,
    parse_string 5 "~~~~" "~~" log_filler log_toggle [] = Done tt log
    /\ List.length log <= 2 * String.length "~~~~" + 1.
Proof.
  apply (@parse_string_terminates "~~~~" "~~" 5); [discriminate|simpl; lia].
Defined.

(** ** TextState::ascend *)

(** C4, as stated, fails: with only the root on the stack, [ascend]
    returns normally and leaves the stack empty. *)
Lemma ascend_root_pops_silently :
  List.length (parents (state (reset (element "blockquote")))) = 1
  /\ ascend (reset (element "blockquote"))
     = Done tt
         (mkMem (mkTextState false false false false false false 0 0 [])
                (element "blockquote"))
  /\ ascend (reset (element "blockquote")) <> Undefined.
Proof. repeat split. discriminate. Qed.

(** C4, amended.  On every non-empty stack, a stack holding only the root
    included, [ascend] returns normally and removes exactly the top entry,
    leaving the flags, the counters and the tree as they were. *)
Theorem ascend_pops_top (m : Mem) :
  parents (state m) <> [] ->
  exists l p,
    parents (state m) = l ++ [p]
    /\ ascend m = Done tt (mkMem (set_parents l (state m)) (root m)).
Proof.
  intros Hne.
  destruct (exists_last Hne) as (l & p & E).
  exists l, p. split; [assumption|].
  rewrite (@ascend_step m l p [] E). simpl. now rewrite app_nil_r.
Qed.

Lemma ascend_pops_top_witness :
  exists l p,
    parents (state (reset (element "blockquote"))) = l ++ [p]
    /\ ascend (reset (element "blockquote"))
       = Done tt
           (mkMem (set_parents l (state (reset (element "blockquote"))))
                  (root (reset (element "blockquote")))).
Proof.
  apply (@ascend_pops_top (reset (element "blockquote"))).
  simpl. discriminate.
Defined.

(** ** Code spans *)

Lemma code_filler_open (highlight_syntax fn : string -> M Mem unit)
    (fuel : nat) (frag : string) (m : Mem) :
  code (state m) = true ->
  code_filler highlight_syntax fn fuel frag m
  = highlight_syntax (strip_quotes frag) m.
Proof.
  intros Hc. unfold code_filler, bind, get. rewrite Hc. reflexivity.
Qed.

(** C3, at a failing input.  With the code flag open the filler of
    [parse_code] strips the two leading quote characters of [">>x"] and
    hands ["x"] to the highlighter without appending anything: under a
    highlighter that emits one [code] element, that element is all the
    tree receives, and no ["&gt;"] text is in it. *)
Theorem code_quotes_not_emitted
    (highlight_syntax fn : string -> M Mem unit) (fuel : nat) (r : Node) :
  code_filler highlight_syntax fn fuel ">>x"
    (mkMem (set_code true (state (reset r))) r)
  = highlight_syntax "x" (mkMem (set_code true (state (reset r))) r)
  /\ code_filler (emit_text "code") fn fuel ">>x"
       (mkMem (set_code true (state (reset r))) r)
     = Done tt
         (mkMem (set_code true (state (reset r)))
                (push_back_child r (text_element "code" "x"))).
Proof. split; reflexivity. Qed.

Lemma emit_text_plain (t : string) : rank t = 4 -> emits_plain (emit_text t).
Proof.
  intros Ht frag m. exists [text_element t frag]. split.
  - constructor; [|constructor]. unfold plain. simpl. now rewrite Ht.
  - unfold emit_text. simpl. unfold bind, ret.
    destruct (append (text_element t frag) false m) as [[] m'| |]; reflexivity.
Qed.

(** C8.  With the code flag open the filler of [parse_code] is the
    highlighter applied to the fragment stripped of its leading quote
    characters, whatever callback the inner scanners would have used; a
    fragment with no code delimiter goes to the highlighter whole; and
    with a highlighter that only emits leaves the state, the flags and
    the stack included, and the tags of the existing elements are as
    before. *)
Theorem code_span_bypass (highlight_syntax fn : string -> M Mem unit)
    (fuel : nat) (frag : string) (m : Mem) :
  code (state m) = true ->
  code_filler highlight_syntax fn fuel frag m
  = highlight_syntax (strip_quotes frag) m
  /\ (forall fn',
        code_filler highlight_syntax fn' fuel frag m
        = code_filler highlight_syntax fn fuel frag m)
  /\ (find frag "``" = None ->
      parse_code highlight_syntax fn (S fuel) frag m
      = highlight_syntax (strip_quotes frag) m)
  /\ (emits_plain highlight_syntax ->
      forall base p0 w, good base p0 w m ->
      exists m',
        code_filler highlight_syntax fn fuel frag m = Done tt m'
        /\ state m' = state m
        /\ (forall q t, tag_at (root m) q = Some t ->
                        tag_at (root m') q = Some t)
        /\ good base p0 w m').
Proof.
  intros Hc. split; [|split; [|split]].
  - now apply code_filler_open.
  - intros fn'. now rewrite !code_filler_open.
  - intros Hf. unfold parse_code. cbn [parse_string]. rewrite Hf.
    now apply code_filler_open.
  - intros Hp base p0 w Hg. rewrite code_filler_open by assumption.
    destruct (Hp (strip_quotes frag) m) as (ns & Hns & E).
    destruct (append_all_good Hns Hg) as (m' & E' & Hst & Hg' & Hkeep).
    exists m'. rewrite E. auto.
Qed.

Lemma code_span_bypass_witness :
  code_filler (emit_text "code") (emit_text "span") 9 ">**a__b~~"
    (mkMem (set_code true (state (reset (element "blockquote"))))
           (element "blockquote"))
  = emit_text "code" "**a__b~~"
      (mkMem (set_code true (state (reset (element "blockquote"))))
             (element "blockquote")).
Proof.
  destruct (@code_span_bypass (emit_text "code") (emit_text "span") 9
              ">**a__b~~"
              (mkMem (set_code true (state (reset (element "blockquote"))))
                     (element "blockquote")))
    as (H & _); [reflexivity|exact H].
Defined.

(** ** Toggles and the stack *)

Lemma toggle_good (base : list path) (p0 : path) (w : bool) (l : level)
    (m : Mem) :
  good base p0 w m ->
  exists m',
    toggle l m = Done tt m'
    /\ flags_of (state m')
       = flags_of (set_flag l (negb (flag l (state m))) (state m))
    /\ good base p0 w m'.
Proof.
  destruct l; simpl.
  - apply toggle_code_good.
  - apply toggle_spoiler_good.
  - apply toggle_bold_good.
  - apply toggle_italic_good.
Qed.

Lemma shape_good (base : list path) (p0 : path) (m : Mem) :
  shape base p0 m -> good base p0 false m.
Proof. intros H. split; [assumption|discriminate]. Qed.

Lemma run_toggles_good (base : list path) (p0 : path) (w : bool) :
  forall ls m, good base p0 w m ->
  exists m', run_toggles ls m = Done tt m' /\ good base p0 w m'.
Proof.
  induction ls as [|l ls IH]; intros m Hg.
  - exists m. auto.
  - destruct (toggle_good l Hg) as (m1 & E1 & _ & Hg1).
    destruct (IH m1 Hg1) as (m2 & E2 & Hg2).
    exists m2. simpl. unfold bind. rewrite E1. auto.
Qed.

Lemma flags_restored (l : level) (s s1 s2 : TextState) :
  flags_of s1 = flags_of (set_flag l (negb (flag l s)) s) ->
  flags_of s2 = flags_of (set_flag l (negb (flag l s1)) s1) ->
  flags_of s2 = flags_of s /\ flag l s1 = negb (flag l s).
Proof.
  destruct s, s1, s2, l; cbn; intros H1 H2;
    inversion H1; inversion H2; subst;
    rewrite ?negb_involutive; auto.
Qed.

(** What a toggle does to the flags whenever it returns, on any state. *)

Lemma keeps_ascend : keeps_flags ascend.
Proof.
  intros m m'. unfold ascend. destruct (parents (state m)); [discriminate|].
  intros H. inversion H. reflexivity.
Qed.

Lemma keeps_append (n : Node) (d : bool) : keeps_flags (append n d).
Proof.
  intros m m'. unfold append.
  destruct (back (parents (state m))) as [p|]; [|discriminate].
  destruct (lookup p (root m)); [|discriminate].
  destruct d; intros H; inversion H; reflexivity.
Qed.

Lemma keeps_when (b : bool) (c : M Mem unit) :
  keeps_flags c -> keeps_flags (when b c).
Proof.
  intros Hc. destruct b; [exact Hc|].
  intros m m' H. inversion H. reflexivity.
Qed.

Lemma keeps_if (b : bool) (c1 c2 : M Mem unit) :
  keeps_flags c1 -> keeps_flags c2 -> keeps_flags (if b then c1 else c2).
Proof. destruct b; auto. Qed.

Lemma keeps_get {A} (f : TextState -> A) (k : A -> M Mem unit) :
  (forall x, keeps_flags (k x)) -> keeps_flags (bind (get f) k).
Proof. intros Hk m m' H. exact (Hk _ m m' H). Qed.

Lemma spec_seq (F : TextState -> TextState) (c1 c2 : M Mem unit) :
  (forall s1 s, flags_of s1 = flags_of s -> flags_of (F s1) = flags_of (F s)) ->
  keeps_flags c1 -> flag_spec F c2 -> flag_spec F (c1 ;; c2).
Proof.
  intros HF H1 H2 m m'. unfold bind.
  destruct (c1 m) as [[] m1| |] eqn:E1; try discriminate.
  intros E2. rewrite (H2 _ _ E2). apply HF. now apply H1.
Qed.

Lemma spec_modify (F : TextState -> TextState) : flag_spec F (modify F).
Proof. intros m m' H. inversion H. reflexivity. Qed.

Lemma set_flag_compat (l : level) (s1 s : TextState) :
  flags_of s1 = flags_of s ->
  flags_of (set_flag l (negb (flag l s1)) s1)
  = flags_of (set_flag l (negb (flag l s)) s).
Proof.
  destruct s1, s, l; cbn; intros H; inversion H; reflexivity.
Qed.

Ltac keeps_step :=
  apply keeps_get; intros ?;
  first [ apply keeps_when; first [apply keeps_ascend|apply keeps_append]
        | apply keeps_if; first [apply keeps_ascend|apply keeps_append] ].

Ltac flag_steps l :=
  repeat (apply (@spec_seq (fun s => set_flag l (negb (flag l s)) s));
          [intros s1 s; apply (@set_flag_compat l)|keeps_step|]);
  apply (@spec_modify (fun s => set_flag l (negb (flag l s)) s)).

Lemma toggle_flags (l : level) :
  flag_spec (fun s => set_flag l (negb (flag l s)) s) (toggle l).
Proof.
  destruct l; cbn [toggle].
  - apply (@spec_modify (fun s => set_flag Code (negb (flag Code s)) s)).
  - unfold toggle_spoiler. flag_steps Spoiler.
  - unfold toggle_bold. flag_steps Bold.
  - unfold toggle_italic. flag_steps Italic.
Qed.

(** C9.  From a state whose stack ends in a live pointer and whose
    spoiler, bold and italic flags are clear, any sequence of toggles of
    the four levels returns normally and leaves the stack as deep as it
    was plus the number of set flags among spoiler, bold and italic; the
    code toggle only flips [state.code], the stack and the tree staying
    as they are. *)
Theorem stack_depth_counts_open_levels (m : Mem) (base : list path)
    (p0 : path) (t : string) (ls : list level) :
  parents (state m) = base ++ [p0] ->
  tag_at (root m) p0 = Some t ->
  spoiler (state m) = false ->
  bold (state m) = false ->
  italic (state m) = false ->
  (exists m',
     run_toggles ls m = Done tt m'
     /\ List.length (parents (state m'))
        = List.length (parents (state m)) + open_count (state m'))
  /\ toggle Code m
     = Done tt (mkMem (set_code (negb (code (state m))) (state m)) (root m))
  /\ parents (set_code (negb (code (state m))) (state m)) = parents (state m).
Proof.
  intros Hps Ht Hs Hb Hi. split; [|split; reflexivity].
  assert (Hsh : shape base p0 m).
  { exists []. split; [assumption|split; [eauto|]].
    unfold open_tags. rewrite Hs, Hb, Hi. exact I. }
  destruct (run_toggles_good ls (shape_good Hsh)) as (m' & E & [Hsh' _]).
  exists m'. split; [assumption|].
  rewrite (shape_depth Hsh'), Hps, length_app. simpl. lia.
Qed.

Lemma stack_depth_counts_open_levels_witness :
  exists m',
    run_toggles [Italic; Spoiler; Code; Bold; Italic; Spoiler]
      (reset (element "blockquote")) = Done tt m'
    /\ List.length (parents (state m'))
       = List.length (parents (state (reset (element "blockquote"))))
         + open_count (state m').
Proof.
  apply (@stack_depth_counts_open_levels (reset (element "blockquote"))
           [] [] "blockquote" [Italic; Spoiler; Code; Bold; Italic; Spoiler]);
    reflexivity.
Defined.

(** C5.  Whenever it returns, on any state, the spoiler toggle flips
    [state.spoiler] and leaves [state.bold], [state.italic] and
    [state.code] as they were, and the bold toggle flips [state.bold] and
    leaves [state.italic], [state.spoiler] and [state.code] as they were.
    On a stack that agrees with the flags both return, and the stack then
    again holds one pointer per open level, to elements tagged del, b, i
    in that order, each a child of the one before. *)
Theorem inner_flags_kept (m : Mem) :
  (forall m',
     toggle_spoiler m = Done tt m' ->
     spoiler (state m') = negb (spoiler (state m))
     /\ bold (state m') = bold (state m)
     /\ italic (state m') = italic (state m)
     /\ code (state m') = code (state m))
  /\ (forall m',
        toggle_bold m = Done tt m' ->
        bold (state m') = negb (bold (state m))
        /\ italic (state m') = italic (state m)
        /\ spoiler (state m') = spoiler (state m)
        /\ code (state m') = code (state m))
  /\ (forall base p0,
        shape base p0 m ->
        (exists m', toggle_spoiler m = Done tt m' /\ shape base p0 m')
        /\ (exists m', toggle_bold m = Done tt m' /\ shape base p0 m')).
Proof.
  split; [|split].
  - intros m' E. pose proof (@toggle_flags Spoiler m m' E) as Hfl.
    pose proof (f_equal spoiler Hfl). pose proof (f_equal bold Hfl).
    pose proof (f_equal italic Hfl). pose proof (f_equal code Hfl).
    auto.
  - intros m' E. pose proof (@toggle_flags Bold m m' E) as Hfl.
    pose proof (f_equal spoiler Hfl). pose proof (f_equal bold Hfl).
    pose proof (f_equal italic Hfl). pose proof (f_equal code Hfl).
    auto.
  - intros base p0 Hsh. apply shape_good in Hsh. split.
    + destruct (toggle_spoiler_good Hsh) as (m' & E & _ & [Hsh' _]). eauto.
    + destruct (toggle_bold_good Hsh) as (m' & E & _ & [Hsh' _]). eauto.
Qed.

Lemma bold_italic_open_shape : shape [] [] bold_italic_open.
Proof.
  exists [[0]; [0; 0]]. split; [reflexivity|]. split; [now exists "blockquote"|].
  simpl. repeat split; try reflexivity; now exists 0.
Qed.

Lemma inner_flags_kept_witness :
  (exists m', toggle_spoiler bold_italic_open = Done tt m' /\ shape [] [] m')
  /\ (exists m', toggle_bold bold_italic_open = Done tt m' /\ shape [] [] m').
Proof.
  destruct (@inner_flags_kept bold_italic_open) as (_ & _ & H).
  apply H. exact bold_italic_open_shape.
Defined.

(** ** Scans of whole fragments *)

Lemma wf_root_canonical (r : Node) :
  wf_root r = true -> canonical_ancestry r.
Proof.
  intros Hr a d (p & q & Hp & Hq & Ha & Hd).
  pose proof (@wf_root_ancestry r a d p q Hr Hp Hq Ha Hd) as H.
  repeat split; intros [Ea Ed]; rewrite ?Ea, Ed in H;
    cbn in H; destruct H as [H|H]; try discriminate; lia.
Qed.

Lemma wf_root_no_self_nesting (r : Node) :
  wf_root r = true -> no_self_nesting r.
Proof.
  intros Hr a d (p & q & Hp & Hq & Ha & Hd) Hlt E.
  pose proof (@wf_root_ancestry r a d p q Hr Hp Hq Ha Hd) as H.
  rewrite <- E in H. lia.
Qed.

Lemma reset_good (r : Node) : wf_root r = true -> good [] [] true (reset r).
Proof.
  intros Hr. split.
  - exists []. split; [reflexivity|]. split; [|exact I].
    exists (tag r). reflexivity.
  - intros _. auto.
Qed.

Section Fragments.

Variable highlight_syntax : string -> M Mem unit.
Variable fn : string -> M Mem unit.
Hypothesis highlight_plain : emits_plain highlight_syntax.
Hypothesis fn_plain : emits_plain fn.

(** A scan from a good state: it returns, the state is good again and
    the flag of the level has flipped once per delimiter. *)
Lemma scanner_good (base : list path) (p0 : path) (w : bool) (l : level)
    (fuel : nat) (frag : string) (m : Mem) :
  String.length frag < fuel ->
  good base p0 w m ->
  exists m',
    scanner highlight_syntax fn l fuel frag m = Done tt m'
    /\ flag l (state m')
       = xorb (flag l (state m))
           (Nat.odd (occurrences (delimiter l) (delimiter l) frag))
    /\ good base p0 w m'.
Proof.
  intros Hlen Hg.
  destruct (@scanner_inv highlight_syntax fn highlight_plain fn_plain
              base p0 w l fuel frag (state m) (flag l (state m)) Hlen m)
    as (m' & E & Hg' & _ & Hx).
  { split; [assumption|]. split; [apply outer_eq_refl|reflexivity]. }
  exists m'. auto.
Qed.

Lemma parse_all_good (base : list path) (p0 : path) (w : bool)
    (fuel : nat) :
  forall frags m,
  (forall frag, In frag frags -> String.length frag < fuel) ->
  good base p0 w m ->
  exists m',
    parse_all highlight_syntax fn fuel frags m = Done tt m'
    /\ good base p0 w m'.
Proof.
  induction frags as [|frag frags IH]; intros m Hlen Hg.
  - exists m. auto.
  - destruct (@scanner_good base p0 w Code fuel frag m) as (m1 & E1 & _ & Hg1);
      [apply Hlen; now left|assumption|].
    destruct (IH m1) as (m2 & E2 & Hg2);
      [intros f Hf; apply Hlen; now right|assumption|].
    exists m2. simpl in *. unfold bind. rewrite E1. auto.
Qed.

End Fragments.

(** C7.  A scan of any level over any fragment, from a stack that agrees
    with the flags, returns normally with the flag of the level flipped
    once per delimiter met.  In particular, from a clear flag a fragment
    whose last delimiter is unmatched leaves the flag set, and a scan of a
    following fragment from that state, its first delimiter being the
    closer, returns with the flag clear and the stack agreeing with the
    flags. *)
Theorem unmatched_delimiter_carries_over
    (highlight_syntax fn : string -> M Mem unit) (l : level)
    (base : list path) (p0 : path) (m : Mem) (fuel : nat) :
  emits_plain highlight_syntax ->
  emits_plain fn ->
  shape base p0 m ->
  (forall frag,
     String.length frag < fuel ->
     exists m',
       scanner highlight_syntax fn l fuel frag m = Done tt m'
       /\ flag l (state m')
          = xorb (flag l (state m))
              (Nat.odd (occurrences (delimiter l) (delimiter l) frag))
       /\ shape base p0 m')
  /\ (forall frag1 frag2,
        String.length frag1 < fuel ->
        String.length frag2 < fuel ->
        flag l (state m) = false ->
        Nat.odd (occurrences (delimiter l) (delimiter l) frag1) = true ->
        Nat.odd (occurrences (delimiter l) (delimiter l) frag2) = true ->
        exists m1 m2,
          scanner highlight_syntax fn l fuel frag1 m = Done tt m1
          /\ flag l (state m1) = true
          /\ scanner highlight_syntax fn l fuel frag2 m1 = Done tt m2
          /\ flag l (state m2) = false
          /\ shape base p0 m2).
Proof.
  intros Hh Hf Hsh. split.
  - intros frag Hlen.
    destruct (@scanner_good highlight_syntax fn Hh Hf base p0 false l fuel
                frag m Hlen (shape_good Hsh)) as (m' & E & Hx & [Hsh' _]).
    exists m'. auto.
  - intros frag1 frag2 Hlen1 Hlen2 Hx Ho1 Ho2.
    destruct (@scanner_good highlight_syntax fn Hh Hf base p0 false l fuel
                frag1 m Hlen1 (shape_good Hsh)) as (m1 & E1 & Hx1 & Hg1).
    destruct (@scanner_good highlight_syntax fn Hh Hf base p0 false l fuel
                frag2 m1 Hlen2 Hg1) as (m2 & E2 & Hx2 & [Hsh2 _]).
    rewrite Hx, Ho1 in Hx1. rewrite Hx1, Ho2 in Hx2.
    exists m1, m2. auto.
Qed.

Lemma unmatched_delimiter_carries_over_witness :
  exists m1 m2,
    scanner (emit_text "code") (emit_text "span") Spoiler 15 "**unterminated"
      (reset (element "blockquote")) = Done tt m1
    /\ flag Spoiler (state m1) = true
    /\ scanner (emit_text "code") (emit_text "span") Spoiler 15 "more text**"
         m1 = Done tt m2
    /\ flag Spoiler (state m2) = false
    /\ shape [] [] m2.
Proof.
  assert (Hsh : shape [] [] (reset (element "blockquote"))).
  { exists []. split; [reflexivity|]. split; [now exists "blockquote"|exact I]. }
  destruct (@unmatched_delimiter_carries_over
              (emit_text "code") (emit_text "span") Spoiler
              [] [] (reset (element "blockquote")) 15
              (emit_text_plain "code" eq_refl)
              (emit_text_plain "span" eq_refl) Hsh) as [_ H].
  apply H; try reflexivity; simpl; lia.
Defined.

(** The highlighter appends at the current insertion point, so a code
    span opened inside a spoiler lands inside the [del] element. *)
Example code_inside_spoiler :
  exists m',
    parse_code (emit_text "code") (emit_text "span") 12 "**a``b``c**"
      (reset (element "blockquote")) = Done tt m'
    /\ tag_at (root m') [1] = Some "del"
    /\ lookup [1; 1] (root m') = Some (text_element "code" "b").
Proof. eexists. split; [reflexivity|]. split; reflexivity. Qed.

(** ** The quote-stripping loop *)

(** X1.  The stripping loop of [parse_code] removes exactly the leading
    run of quote characters: the fragment is that run followed by the
    result, the result does not start with a quote character, and
    stripping again changes nothing. *)
Theorem strip_quotes_leading_run (frag : string) :
  (exists n, frag = (quote_run n ++ strip_quotes frag)%string)
  /\ (forall rest, strip_quotes frag <> String ">" rest)
  /\ strip_quotes (strip_quotes frag) = strip_quotes frag.
Proof.
  induction frag as [|c rest IH].
  - split; [exists 0; reflexivity|]. split; [discriminate|reflexivity].
  - cbn [strip_quotes]. destruct (Ascii.eqb c ">") eqn:E.
    + apply Ascii.eqb_eq in E. subst c.
      destruct IH as ((n & Hn) & Hhead & Hid).
      split; [|split; assumption].
      exists (S n). simpl. now rewrite <- Hn.
    + split; [exists 0; reflexivity|]. split.
      * intros tl H. inversion H; subst. now rewrite Ascii.eqb_refl in E.
      * cbn [strip_quotes]. now rewrite E.
Qed.

(** ** The scan with other separators *)

(** X2.  With an empty separator the loop of [parse_string] never ends:
    [find] matches at 0, the remainder is the fragment itself, and with
    callbacks that return, every amount of fuel is used up. *)
Theorem parse_string_empty_separator_diverges (S : Type)
    (filler : string -> M S unit) (on_match : M S unit) :
  (forall p s, exists s', filler p s = Done tt s') ->
  (forall s, exists s', on_match s = Done tt s') ->
  forall fuel frag s,
    parse_string fuel frag EmptyString filler on_match s = OutOfFuel.
Proof.
  intros Hfi Hto. induction fuel as [|fuel IH]; intros frag s; [reflexivity|].
  cbn [parse_string].
  assert (Hf : find frag EmptyString = Some 0) by (destruct frag; reflexivity).
  rewrite Hf. unfold bind.
  destruct (Hfi (substr frag 0 0) s) as (s1 & ->).
  destruct (Hto s1) as (s2 & ->).
  unfold substr_from. simpl. rewrite Nat.sub_0_r, substring_all. apply IH.
Qed.

Lemma parse_string_empty_separator_diverges_witness :
  parse_string 50 "a**b" EmptyString log_filler log_toggle [] = OutOfFuel.
Proof.
  apply (@parse_string_empty_separator_diverges (list event)
           log_filler log_toggle).
  - intros p s. eexists. reflexivity.
  - intros s. eexists. reflexivity.
Defined.

Lemma prefix_substring (s : string) :
  forall t j, String.prefix s (String.substring 0 j t) = true ->
              String.prefix s t = true.
Proof.
  induction s as [|a s IH]; intros t j H; [destruct t; reflexivity|].
  destruct t as [|b t]; [destruct j; discriminate|].
  destruct j as [|j]; [discriminate|].
  simpl in *. destruct (ascii_dec a b); [eauto|discriminate].
Qed.

Lemma prefix_decompose (s : string) :
  forall t, String.prefix s t = true ->
  t = (s ++ String.substring (String.length s)
              (String.length t - String.length s) t)%string.
Proof.
  induction s as [|a s IH]; intros t H.
  - simpl. now rewrite Nat.sub_0_r, substring_all.
  - destruct t as [|b t]; [discriminate|].
    simpl in H. destruct (ascii_dec a b) as [->|]; [|discriminate].
    simpl. f_equal. now apply IH.
Qed.

Lemma find_empty_frag (sep : string) :
  sep <> EmptyString -> find EmptyString sep = None.
Proof. destruct sep; [congruence|reflexivity]. Qed.

(** The text before the first occurrence holds no occurrence. *)
Lemma find_before (sep : string) :
  sep <> EmptyString ->
  forall frag i, find frag sep = Some i ->
  find (substr frag 0 i) sep = None.
Proof.
  intros Hsep. induction frag as [|c rest IH]; intros i H.
  - rewrite find_empty_frag in H by assumption. discriminate.
  - rewrite find_cons in H.
    destruct (String.prefix sep (String c rest)) eqn:P.
    + inversion H; subst. unfold substr. simpl.
      now apply find_empty_frag.
    + destruct (find rest sep) as [j|] eqn:Hj; [|discriminate].
      inversion H; subst. unfold substr in *.
      change (String.substring 0 (S j) (String c rest))
        with (String c (String.substring 0 j rest)).
      rewrite find_cons, (IH j eq_refl).
      destruct (String.prefix sep (String c (String.substring 0 j rest)))
        eqn:P'; [|reflexivity].
      change (String c (String.substring 0 j rest))
        with (String.substring 0 (S j) (String c rest)) in P'.
      apply prefix_substring in P'. congruence.
Qed.

(** The fragment is the text before the first occurrence, the separator
    and the remainder the loop goes on with. *)
Lemma find_decompose (sep : string) :
  forall frag i, find frag sep = Some i ->
  frag = (substr frag 0 i ++ sep
            ++ substr_from frag (i + String.length sep))%string.
Proof.
  induction frag as [|c rest IH]; intros i H.
  - destruct sep; [|discriminate]. simpl in H. inversion H; reflexivity.
  - rewrite find_cons in H.
    destruct (String.prefix sep (String c rest)) eqn:P.
    + inversion H; subst. unfold substr, substr_from.
      change (String.substring 0 0 (String c rest)) with EmptyString.
      cbn [String.append Nat.add]. now apply prefix_decompose.
    + destruct (find rest sep) as [j|] eqn:Hj; [|discriminate].
      inversion H; subst. specialize (IH j eq_refl).
      unfold substr, substr_from in *. simpl. f_equal. exact IH.
Qed.

Lemma find_index_length (sep frag : string) (i : nat) :
  find frag sep = Some i -> String.length (substr frag 0 i) = i.
Proof.
  intros H. apply find_bound in H. unfold substr.
  rewrite substring_length. lia.
Qed.

Lemma join_cons (sep p : string) (ps : list string) :
  ps <> [] -> join sep (p :: ps) = (p ++ sep ++ join sep ps)%string.
Proof. destruct ps; [congruence|reflexivity]. Qed.

Lemma parse_string_pieces (sep : string) (fuel : nat) :
  sep <> EmptyString ->
  forall frag, String.length frag < fuel ->
  exists ps,
    (forall (S : Type) (filler : string -> M S unit) (on_match : M S unit),
       parse_string fuel frag sep filler on_match
       = run_pieces filler on_match ps)
    /\ join sep ps = frag
    /\ scan_split sep ps
    /\ Forall (fun p => find p sep = None) ps.
Proof.
  intros Hsep. induction fuel as [|fuel IH]; intros frag Hlen; [lia|].
  destruct (find frag sep) as [i|] eqn:Hf.
  - pose proof (@substr_from_shorter frag sep i Hsep Hf) as Hsh.
    destruct (IH (substr_from frag (i + String.length sep)))
      as (ps & Hrun & Hjoin & Hscan & Hfree); [lia|].
    assert (Hne : ps <> []) by (destruct ps; [contradiction|discriminate]).
    exists (substr frag 0 i :: ps).
    assert (Hj : join sep (substr frag 0 i :: ps) = frag).
    { rewrite join_cons by assumption. rewrite Hjoin.
      symmetry. now apply find_decompose. }
    split; [|split; [assumption|split]].
    + intros S filler on_match. cbn [parse_string]. rewrite Hf, Hrun.
      destruct ps; [congruence|reflexivity].
    + destruct ps as [|q qs]; [congruence|].
      split; [|assumption].
      rewrite Hj, Hf. f_equal. symmetry.
      exact (@find_index_length sep frag i Hf).
    + constructor; [|assumption]. now apply find_before.
  - exists [frag]. split; [|split; [reflexivity|split]].
    + intros S filler on_match. cbn [parse_string]. now rewrite Hf.
    + exact Hf.
    + constructor; [assumption|constructor].
Qed.

(** X3.  For any non-empty separator, [parse_string] runs the filler on
    pieces and the toggle between them such that the pieces joined by the
    separator give back the fragment, each cut is at the first occurrence
    of the separator in what is left, and no piece handed to the filler
    holds the separator. *)
Theorem parse_string_cuts_at_first_occurrences (sep frag : string)
    (fuel : nat) :
  sep <> EmptyString ->
  String.length frag < fuel ->
  exists ps,
    (forall (S : Type) (filler : string -> M S unit) (on_match : M S unit),
       parse_string fuel frag sep filler on_match
       = run_pieces filler on_match ps)
    /\ parse_string fuel frag sep log_filler log_toggle []
       = Done tt (interleave ps)
    /\ join sep ps = frag
    /\ scan_split sep ps
    /\ Forall (fun p => find p sep = None) ps.
Proof.
  intros Hsep Hlen.
  destruct (parse_string_pieces Hsep frag Hlen)
    as (ps & Hrun & Hjoin & Hscan & Hfree).
  exists ps. repeat split; try assumption.
  rewrite Hrun. apply run_pieces_log. destruct ps; [contradiction|discriminate].
Qed.

Lemma parse_string_cuts_at_first_occurrences_witness :
  exists ps,
    parse_string 9 "a<br>b<b" "<br>" log_filler log_toggle []
    = Done tt (interleave ps)
    /\ join "<br>" ps = "a<br>b<b"
    /\ Forall (fun p => find p "<br>" = None) ps.
Proof.
  destruct (@parse_string_cuts_at_first_occurrences "<br>" "a<br>b<b" 9)
    as (ps & _ & Hlog & Hjoin & _ & Hfree); [discriminate|simpl; lia|].
  exists ps. auto.
Defined.

(** ** Scans only add to the tree *)

Lemma grows_refl (r : Node) : grows r r.
Proof. intros q x H. exists x. auto. Qed.

Lemma grows_trans (r1 r2 r3 : Node) :
  grows r1 r2 -> grows r2 r3 -> grows r1 r3.
Proof.
  intros H12 H23 q x H.
  destruct (H12 q x H) as (x2 & L2 & T2 & A2 & I2 & C2).
  destruct (H23 q x2 L2) as (x3 & L3 & T3 & A3 & I3 & C3).
  exists x3. repeat split; try congruence. lia.
Qed.

Lemma set_nth_length {A} (i : nat) (x : A) (l : list A) :
  List.length (set_nth i x l) = List.length l.
Proof.
  revert i; induction l as [|y l IH]; intros [|i]; simpl; auto.
Qed.

Lemma graft_grows (p : path) (c : Node) : forall r, grows r (graft p c r).
Proof.
  induction p as [|i p IH]; intros r q x H.
  - destruct q as [|j q]; simpl in *.
    + inversion H; subst. eexists. split; [reflexivity|].
      simpl. rewrite length_app. repeat split; lia.
    + destruct (nth_error (children r) j) as [ch|] eqn:E; [|discriminate].
      rewrite nth_error_app1 by (apply nth_error_Some; congruence).
      rewrite E. exists x. auto.
  - simpl. destruct (nth_error (children r) i) as [ch|] eqn:E;
      [|exists x; auto].
    destruct q as [|j q]; simpl in *.
    + inversion H; subst. eexists. split; [reflexivity|].
      simpl. rewrite set_nth_length. auto.
    + destruct (Nat.eq_dec i j) as [->|Hne].
      * rewrite E in H. rewrite (nth_error_set_nth_eq _ _ _ E). now apply IH.
      * rewrite nth_error_set_nth_neq by assumption.
        destruct (nth_error (children r) j); [|discriminate].
        exists x. auto.
Qed.

Lemma grows_ascend : only_grows ascend.
Proof.
  intros m m'. unfold ascend. destruct (parents (state m)); [discriminate|].
  intros H. inversion H. apply grows_refl.
Qed.

Lemma grows_append (n : Node) (d : bool) : only_grows (append n d).
Proof.
  intros m m'. unfold append.
  destruct (back (parents (state m))) as [p|]; [|discriminate].
  destruct (lookup p (root m)); [|discriminate].
  destruct d; intros H; inversion H; apply graft_grows.
Qed.

Lemma grows_modify (f : TextState -> TextState) : only_grows (modify f).
Proof. intros m m' H. inversion H. apply grows_refl. Qed.

Lemma grows_when (b : bool) (c : M Mem unit) :
  only_grows c -> only_grows (when b c).
Proof.
  intros Hc. destruct b; [exact Hc|].
  intros m m' H. inversion H. apply grows_refl.
Qed.

Lemma grows_if (b : bool) (c1 c2 : M Mem unit) :
  only_grows c1 -> only_grows c2 -> only_grows (if b then c1 else c2).
Proof. destruct b; auto. Qed.

Lemma grows_get {A} (f : TextState -> A) (k : A -> M Mem unit) :
  (forall x, only_grows (k x)) -> only_grows (bind (get f) k).
Proof. intros Hk m m' H. exact (Hk _ m m' H). Qed.

Lemma grows_seq (c1 c2 : M Mem unit) :
  only_grows c1 -> only_grows c2 -> only_grows (c1 ;; c2).
Proof.
  intros H1 H2 m m'. unfold bind.
  destruct (c1 m) as [[] m1| |] eqn:E1; try discriminate.
  intros E2. eapply grows_trans; eauto.
Qed.

Ltac grows_step :=
  first [ apply grows_ascend | apply grows_append | apply grows_modify
        | apply grows_when; grows_step
        | apply grows_if; grows_step
        | apply grows_get; intros ?; grows_step
        | apply grows_seq; grows_step ].

Lemma grows_toggle (l : level) : only_grows (toggle l).
Proof.
  destruct l; cbn [toggle];
    unfold toggle_code, toggle_spoiler, toggle_bold, toggle_italic;
    grows_step.
Qed.

Lemma grows_parse_string (sep : string) (filler : string -> M Mem unit)
    (on_match : M Mem unit) :
  (forall p, only_grows (filler p)) -> only_grows on_match ->
  forall fuel frag, only_grows (parse_string fuel frag sep filler on_match).
Proof.
  intros Hf Ht. induction fuel as [|fuel IH]; intros frag.
  - intros m m' H. discriminate.
  - cbn [parse_string]. destruct (find frag sep); [|apply Hf].
    apply grows_seq; [apply Hf|]. apply grows_seq; [apply Ht|apply IH].
Qed.

(** X4.  The toggles and, given callbacks that only add to the tree, the
    scanners of the four levels only add to the tree: whenever one
    returns, every node that was in the tree is still at its path with
    its tag, attributes and text, and has lost no child. *)
Theorem scans_only_add (highlight_syntax fn : string -> M Mem unit) :
  (forall frag, only_grows (highlight_syntax frag)) ->
  (forall frag, only_grows (fn frag)) ->
  (forall l, only_grows (toggle l))
  /\ (forall l fuel frag,
        only_grows (scanner highlight_syntax fn l fuel frag)).
Proof.
  intros Hh Hf. split; [apply grows_toggle|].
  assert (Hi : forall fuel frag, only_grows (parse_italics fn fuel frag)).
  { intros fuel frag. unfold parse_italics.
    apply grows_parse_string; [assumption|apply (grows_toggle Italic)]. }
  assert (Hb : forall fuel frag, only_grows (parse_bolds fn fuel frag)).
  { intros fuel frag. unfold parse_bolds.
    apply grows_parse_string; [intros p; apply Hi|apply (grows_toggle Bold)]. }
  assert (Hs : forall fuel frag, only_grows (parse_spoilers fn fuel frag)).
  { intros fuel frag. unfold parse_spoilers.
    apply grows_parse_string;
      [intros p; apply Hb|apply (grows_toggle Spoiler)]. }
  intros l fuel frag. destruct l; cbn [scanner]; auto.
  unfold parse_code.
  apply grows_parse_string; [|apply (grows_toggle Code)].
  intros p. unfold code_filler. apply grows_get. intros c.
  destruct c; [|apply Hs].
  apply grows_seq; [|apply Hh].
  apply grows_when. apply grows_append.
Qed.

Lemma scans_only_add_witness :
  exists m',
    scanner (emit_text "code") (emit_text "span") Code 12 "__a**b``c"
      bold_italic_open = Done tt m'
    /\ grows (root bold_italic_open) (root m').
Proof.
  destruct (@scans_only_add (emit_text "code") (emit_text "span"))
    as [_ H].
  - intros frag. apply grows_append.
  - intros frag. apply grows_append.
  - assert (E : exists m',
               scanner (emit_text "code") (emit_text "span") Code 12
                 "__a**b``c" bold_italic_open = Done tt m')
      by (vm_compute; eexists; reflexivity).
    destruct E as (m' & E). exists m'. split; [exact E|].
    exact (H Code 12 "__a**b``c" bold_italic_open m' E).
Defined.

(** ** The root stays on the stack *)

(** X7.  From a freshly reset state, with callbacks that only emit leaves,
    any succession of scans returns with the root still the bottom entry
    of the stack and exactly one entry above it per set flag among
    spoiler, bold and italic: no scan pops the root. *)
Theorem scans_never_pop_root (highlight_syntax fn : string -> M Mem unit)
    (r : Node) (frags : list string) (fuel : nat) :
  emits_plain highlight_syntax ->
  emits_plain fn ->
  (forall frag, In frag frags -> String.length frag < fuel) ->
  exists m' ps,
    parse_all highlight_syntax fn fuel frags (reset r) = Done tt m'
    /\ parents (state m') = [] :: ps
    /\ List.length ps = open_count (state m').
Proof.
  intros Hh Hf Hlen.
  assert (Hg : good [] [] false (reset r)).
  { apply shape_good. exists []. split; [reflexivity|].
    split; [exists (tag r); reflexivity|exact I]. }
  destruct (@parse_all_good highlight_syntax fn Hh Hf [] [] false fuel frags
              (reset r) Hlen Hg) as (m' & E & [Hsh _]).
  pose proof (shape_depth Hsh) as Hd.
  destruct Hsh as (ps & Hps & _ & _).
  exists m', ps. split; [assumption|]. split; [assumption|].
  rewrite Hps in Hd. cbn [app List.length] in Hd. unfold path in *. lia.
Qed.

Lemma scans_never_pop_root_witness :
  exists m' ps,
    parse_all (emit_text "code") (emit_text "span") 12
      ["~~a**"; "**b__c~~"; "d**e"] (reset (element "blockquote"))
    = Done tt m'
    /\ parents (state m') = [] :: ps
    /\ List.length ps = open_count (state m').
Proof.
  apply (@scans_never_pop_root (emit_text "code") (emit_text "span")
           (element "blockquote") ["~~a**"; "**b__c~~"; "d**e"] 12).
  - now apply emit_text_plain.
  - now apply emit_text_plain.
  - intros frag [<-|[<-|[<-|[]]]]; simpl; lia.
Defined.

(** ** Toggles in any order *)

Lemma flip_all_compat :
  forall ls s1 s, flags_of s1 = flags_of s ->
  flags_of (flip_all ls s1) = flags_of (flip_all ls s).
Proof.
  induction ls as [|l ls IH]; intros s1 s H; [assumption|].
  simpl. apply IH. now apply set_flag_compat.
Qed.

Lemma flip_swap (l1 l2 : level) (s : TextState) :
  flip_all [l1; l2] s = flip_all [l2; l1] s.
Proof. destruct s, l1, l2; reflexivity. Qed.

Lemma flip_all_perm (ls ls' : list level) :
  Permutation ls ls' -> forall s, flip_all ls s = flip_all ls' s.
Proof.
  induction 1 as [|x l l' _ IH|x y l|l l' l'' _ IH1 _ IH2]; intros s.
  - reflexivity.
  - simpl. apply IH.
  - change (flip_all (y :: x :: l) s) with (flip_all l (flip_all [y; x] s)).
    change (flip_all (x :: y :: l) s) with (flip_all l (flip_all [x; y] s)).
    now rewrite flip_swap.
  - now rewrite IH1.
Qed.

Lemma flip_all_parity (l : level) :
  forall ls s,
  flag l (flip_all ls s) = xorb (flag l s) (Nat.odd (toggles_of l ls)).
Proof.
  induction ls as [|x ls IH]; intros s.
  - simpl. now rewrite xorb_false_r.
  - cbn [flip_all]. rewrite IH. unfold toggles_of. cbn [filter].
    destruct (level_eqb l x) eqn:E.
    + cbn [List.length]. rewrite Nat.odd_succ, <- Nat.negb_odd.
      destruct l, x; try discriminate; destruct s; cbn;
        match goal with
        | |- xorb (negb ?a) ?b = xorb ?a (negb ?b) => destruct a, b; reflexivity
        end.
    + destruct l, x; try discriminate; destruct s; reflexivity.
Qed.

Lemma run_toggles_flags (base : list path) (p0 : path) :
  forall ls m, shape base p0 m ->
  exists m',
    run_toggles ls m = Done tt m'
    /\ flags_of (state m') = flags_of (flip_all ls (state m))
    /\ shape base p0 m'.
Proof.
  induction ls as [|l ls IH]; intros m Hsh.
  - exists m. auto.
  - destruct (toggle_good l (shape_good Hsh)) as (m1 & E1 & F1 & [Hsh1 _]).
    destruct (IH m1 Hsh1) as (m2 & E2 & F2 & Hsh2).
    exists m2. simpl. unfold bind. rewrite E1.
    split; [assumption|]. split; [|assumption].
    rewrite F2. now apply flip_all_compat.
Qed.

(** X8.  On a stack that agrees with the flags, a sequence of toggles
    returns with each flag flipped once per toggle of its level, whatever
    the order: any reordering of the sequence ends with the same flags and
    the same depth of stack, the stack again agreeing with the flags. *)
Theorem toggles_in_any_order (base : list path) (p0 : path) (m : Mem)
    (ls ls' : list level) :
  shape base p0 m ->
  Permutation ls ls' ->
  exists m1 m2,
    run_toggles ls m = Done tt m1
    /\ run_toggles ls' m = Done tt m2
    /\ (forall l, flag l (state m1)
                  = xorb (flag l (state m)) (Nat.odd (toggles_of l ls)))
    /\ flags_of (state m1) = flags_of (state m2)
    /\ List.length (parents (state m1)) = List.length (parents (state m2))
    /\ shape base p0 m1 /\ shape base p0 m2.
Proof.
  intros Hsh Hperm.
  destruct (run_toggles_flags ls Hsh) as (m1 & E1 & F1 & Hsh1).
  destruct (run_toggles_flags ls' Hsh) as (m2 & E2 & F2 & Hsh2).
  assert (F12 : flags_of (state m1) = flags_of (state m2)).
  { rewrite F1, F2. now rewrite (flip_all_perm Hperm). }
  exists m1, m2. repeat split; try assumption.
  - intros l. rewrite <- flip_all_parity.
    destruct l; [apply (f_equal code F1)|apply (f_equal spoiler F1)
                |apply (f_equal bold F1)|apply (f_equal italic F1)].
  - rewrite (shape_depth Hsh1), (shape_depth Hsh2). unfold open_count.
    pose proof (f_equal spoiler F12) as Hs.
    pose proof (f_equal bold F12) as Hb.
    pose proof (f_equal italic F12) as Hi.
    cbn in Hs, Hb, Hi. now rewrite Hs, Hb, Hi.
Qed.

Lemma toggles_in_any_order_witness :
  exists m1 m2,
    run_toggles [Spoiler; Bold; Italic] (reset (element "blockquote"))
    = Done tt m1
    /\ run_toggles [Italic; Bold; Spoiler] (reset (element "blockquote"))
       = Done tt m2
    /\ flags_of (state m1) = flags_of (state m2)
    /\ List.length (parents (state m1)) = List.length (parents (state m2)).
Proof.
  destruct (@toggles_in_any_order [] [] (reset (element "blockquote"))
              [Spoiler; Bold; Italic] [Italic; Bold; Spoiler])
    as (m1 & m2 & E1 & E2 & _ & F & D & _).
  - exists []. split; [reflexivity|].
    split; [now exists "blockquote"|exact I].
  - apply Permutation_rev.
  - exists m1, m2. auto.
Defined.

(** ** Text without delimiters *)

Lemma occurrences_zero_find (a b : ascii) (frag : string) :
  occurrences a b frag = 0 -> find frag (sep2 a b) = None.
Proof.
  intros H0. pose proof (find_split2 a b frag) as Hs.
  destruct (find frag (sep2 a b)) as [i|]; [|reflexivity].
  pose proof (split2_count a b frag) as Hc. rewrite Hs, H0 in Hc.
  pose proof (split2_nonempty a b (substr_from frag (i + 2))) as Hne.
  destruct (split2 a b (substr_from frag (i + 2))); [congruence|].
  simpl in Hc. lia.
Qed.

(** X6.  A fragment that holds none of the four doubled delimiters, the
    empty fragment included, scanned with the code flag clear and any
    fuel but zero, is handed whole to [fn], once: no toggle runs and the
    pipeline itself changes nothing. *)
Theorem plain_fragment_goes_to_fn (highlight_syntax fn : string -> M Mem unit)
    (fuel : nat) (frag : string) (m : Mem) :
  occurrences "`" "`" frag = 0 ->
  occurrences "*" "*" frag = 0 ->
  occurrences "_" "_" frag = 0 ->
  occurrences "~" "~" frag = 0 ->
  code (state m) = false ->
  parse_code highlight_syntax fn (S fuel) frag m = fn frag m.
Proof.
  intros Hc Hs Hb Hi Hcode.
  apply occurrences_zero_find in Hc, Hs, Hb, Hi.
  unfold parse_code. cbn [parse_string].
  change "``" with (sep2 "`" "`"). rewrite Hc.
  unfold code_filler, bind, get. rewrite Hcode.
  unfold parse_spoilers. cbn [parse_string].
  change "**" with (sep2 "*" "*"). rewrite Hs.
  unfold parse_bolds. cbn [parse_string].
  change "__" with (sep2 "_" "_"). rewrite Hb.
  unfold parse_italics. cbn [parse_string].
  change "~~" with (sep2 "~" "~"). rewrite Hi.
  reflexivity.
Qed.

Lemma plain_fragment_goes_to_fn_witness :
  parse_code (emit_text "code") (emit_text "span") 1 "a*b_c~d`e"
    (reset (element "blockquote"))
  = emit_text "span" "a*b_c~d`e" (reset (element "blockquote")).
Proof.
  apply (@plain_fragment_goes_to_fn (emit_text "code") (emit_text "span") 0
           "a*b_c~d`e" (reset (element "blockquote"))); reflexivity.
Defined.

(** ** File extensions *)

(** Distinct enumerators have distinct values, so comparing values, as
    [map_find] does, compares file types. *)
Lemma file_type_value_inj (t t' : FileType) :
  file_type_value t = file_type_value t' -> t = t'.
Proof. destruct t, t'; simpl; intros H; try reflexivity; discriminate. Qed.

(** X5.  [file_extentions] gives an extension to every file type but
    [no_file], which is not a key; no key is listed twice and no two file
    types share an extension, so the extension tells the type. *)
Theorem file_extentions_table :
  (forall t, map_find file_extentions t = None <-> t = no_file)
  /\ NoDup (map fst file_extentions)
  /\ (forall t t' e,
        map_find file_extentions t = Some e ->
        map_find file_extentions t' = Some e -> t = t')
  /\ (forall t e, map_find file_extentions t = Some e <->
                  In (t, e) file_extentions).
Proof.
  split; [|split; [|split]].
  - intros t. split.
    + destruct t; simpl; intros H; try discriminate; reflexivity.
    + intros ->. reflexivity.
  - unfold file_extentions. cbn [map fst].
    repeat (constructor; [cbn [In]; intuition discriminate|]).
    constructor.
  - intros t t' e. destruct t; simpl; intros H; inversion H; subst;
      destruct t'; simpl; intros H'; try discriminate; reflexivity.
  - intros t e. split.
    + destruct t; simpl; intros H; inversion H; subst; tauto.
    + unfold file_extentions. cbn [In].
      intros H. repeat (destruct H as [H|H]; [inversion H; reflexivity|]).
      contradiction.
Qed.

(** ** What a scanner leaves alone *)

Lemma frame_refl (l : level) (s : TextState) : frame l s s.
Proof. split; [apply outer_eq_refl|auto]. Qed.

Lemma frame_trans (l : level) (s1 s2 s3 : TextState) :
  frame l s1 s2 -> frame l s2 s3 -> frame l s1 s3.
Proof.
  intros (O1 & Q1 & H1 & N1 & D1) (O2 & Q2 & H2 & N2 & D2).
  split; [|repeat split; congruence].
  destruct l; simpl in *; intuition congruence.
Qed.

Lemma frame_of_flags (l : level) (s s' : TextState) :
  flags_of s' = flags_of s -> frame l s s'.
Proof.
  intros H.
  pose proof (f_equal code H). pose proof (f_equal spoiler H).
  pose proof (f_equal bold H). pose proof (f_equal quote H).
  pose proof (f_equal have_syncwatch H).
  pose proof (f_equal successive_newlines H).
  pose proof (f_equal dice_index H).
  cbn in *. split; [destruct l; simpl; auto|auto].
Qed.

(** The frame of an outer scanner holds across an inner one. *)
Lemma frame_weaken (l l' : level) (s s' : TextState) :
  depth_of l <= depth_of l' -> frame l' s s' -> frame l s s'.
Proof.
  intros Hd (O & rest). split; [|exact rest].
  destruct l, l'; simpl in *; try lia; tauto.
Qed.

Lemma keeps_frame_toggle (l l' : level) :
  depth_of l <= depth_of l' -> keeps (frame l) (toggle l').
Proof.
  intros Hd m m' E. pose proof (@toggle_flags l' m m' E) as H.
  pose proof (f_equal code H). pose proof (f_equal spoiler H).
  pose proof (f_equal bold H). pose proof (f_equal quote H).
  pose proof (f_equal have_syncwatch H).
  pose proof (f_equal successive_newlines H).
  pose proof (f_equal dice_index H).
  destruct l, l'; simpl in Hd; try lia; cbn in *;
    (split; [simpl; auto|auto]).
Qed.

Lemma keeps_parse_string (R : TextState -> TextState -> Prop) (sep : string)
    (filler : string -> M Mem unit) (on_match : M Mem unit) :
  (forall s, R s s) ->
  (forall s1 s2 s3, R s1 s2 -> R s2 s3 -> R s1 s3) ->
  (forall p, keeps R (filler p)) -> keeps R on_match ->
  forall fuel frag, keeps R (parse_string fuel frag sep filler on_match).
Proof.
  intros Hrefl Htrans Hf Ht. induction fuel as [|fuel IH]; intros frag m m'.
  - discriminate.
  - cbn [parse_string]. destruct (find frag sep); [|apply Hf].
    unfold bind.
    destruct (filler (substr frag 0 n) m) as [[] m1| |] eqn:E1;
      try discriminate.
    destruct (on_match m1) as [[] m2| |] eqn:E2; try discriminate.
    intros E3. eapply Htrans; [exact (Hf _ _ _ E1)|].
    eapply Htrans; [exact (Ht _ _ E2)|exact (IH _ _ _ E3)].
Qed.

(** X9.  Given callbacks that leave the flags and counters alone, the
    scanner of a level, whenever it returns, has left the quote flag, the
    syncwatch flag, both counters and the flags of every level scanned
    before it as they were: [parse_italics] can only change
    [state.italic], [parse_bolds] only [state.bold] and [state.italic],
    [parse_spoilers] never [state.code]. *)
Theorem scanner_frame (highlight_syntax fn : string -> M Mem unit)
    (l : level) (fuel : nat) (frag : string) (m m' : Mem) :
  (forall p, keeps_flags (highlight_syntax p)) ->
  (forall p, keeps_flags (fn p)) ->
  scanner highlight_syntax fn l fuel frag m = Done tt m' ->
  frame l (state m) (state m').
Proof.
  intros Hh Hf.
  assert (Hi : forall fuel frag, keeps (frame Italic) (parse_italics fn fuel frag)).
  { intros fu fr. unfold parse_italics.
    apply keeps_parse_string;
      [apply frame_refl|apply frame_trans|
       |apply (@keeps_frame_toggle Italic Italic); simpl; lia].
    intros p m1 m2 E. apply frame_of_flags. exact (Hf p m1 m2 E). }
  assert (Hb : forall fuel frag, keeps (frame Bold) (parse_bolds fn fuel frag)).
  { intros fu fr. unfold parse_bolds.
    apply keeps_parse_string;
      [apply frame_refl|apply frame_trans|
       |apply (@keeps_frame_toggle Bold Bold); simpl; lia].
    intros p m1 m2 E. apply frame_weaken with (l' := Italic); [simpl; lia|].
    exact (Hi _ _ _ _ E). }
  assert (Hs : forall fuel frag,
             keeps (frame Spoiler) (parse_spoilers fn fuel frag)).
  { intros fu fr. unfold parse_spoilers.
    apply keeps_parse_string;
      [apply frame_refl|apply frame_trans|
       |apply (@keeps_frame_toggle Spoiler Spoiler); simpl; lia].
    intros p m1 m2 E. apply frame_weaken with (l' := Bold); [simpl; lia|].
    exact (Hb _ _ _ _ E). }
  destruct l; cbn [scanner]; intros E;
    [|exact (Hs _ _ _ _ E)|exact (Hb _ _ _ _ E)|exact (Hi _ _ _ _ E)].
  revert m m' E. unfold parse_code.
  apply keeps_parse_string;
    [apply frame_refl|apply frame_trans|
       |apply (@keeps_frame_toggle Code Code); simpl; lia].
  intros p m1 m2. unfold code_filler, bind, get.
  destruct (code (state m1)).
  - cbn. intros E. apply frame_of_flags. exact (Hh _ m1 m2 E).
  - intros E. apply frame_weaken with (l' := Spoiler); [simpl; lia|].
    exact (Hs _ _ _ _ E).
Qed.

Lemma scanner_frame_witness :
  exists m',
    scanner (emit_text "code") (emit_text "span") Bold 12 "a__b~~c**d"
      (reset (element "blockquote")) = Done tt m'
    /\ frame Bold (state (reset (element "blockquote"))) (state m').
Proof.
  assert (E : exists m',
             scanner (emit_text "code") (emit_text "span") Bold 12
               "a__b~~c**d" (reset (element "blockquote")) = Done tt m')
    by (vm_compute; eexists; reflexivity).
  destruct E as (m' & E). exists m'. split; [exact E|].
  apply (@scanner_frame (emit_text "code") (emit_text "span") Bold 12
           "a__b~~c**d" (reset (element "blockquote")) m').
  - intros p. apply keeps_append.
  - intros p. apply keeps_append.
  - exact E.
Defined.

(** ** Counting the elements a scan appends *)

Lemma Node_induction (P : Node -> Prop) :
  (forall t a cs h, Forall P cs -> P (mkNode t a cs h)) ->
  forall n, P n.
Proof.
  intros H. fix IH 1. intros [t a cs h]. apply H.
  induction cs as [|c cs IHcs]; constructor; [apply IH|exact IHcs].
Qed.

Lemma count_tag_unfold (t : string) (n : Node) :
  count_tag t n
  = Nat.b2n (String.eqb (tag n) t) + list_sum (map (count_tag t) (children n)).
Proof. destruct n; reflexivity. Qed.

Lemma plain_count (t : string) :
  rank t < 4 -> forall c, plain c = true -> count_tag t c = 0.
Proof.
  intros Ht. induction c as [u a cs h IH] using Node_induction.
  unfold plain. rewrite wf_unfold, count_tag_unfold. cbn [tag children].
  intros H. apply andb_true_iff in H. destruct H as [Hu Hcs].
  assert (Hr : rank u = 4).
  { unfold lvl_ok in Hu. apply orb_true_iff in Hu. destruct Hu as [Hu|Hu].
    - now apply Nat.eqb_eq.
    - apply Nat.ltb_lt in Hu. pose proof (rank_le_4 u). lia. }
  rewrite Hr in Hcs.
  destruct (String.eqb u t) eqn:E.
  - apply String.eqb_eq in E. subst. lia.
  - simpl. clear -IH Hcs. induction cs as [|c cs IHcs]; [reflexivity|].
    simpl in *. apply andb_true_iff in Hcs. destruct Hcs as [Hc Hcs].
    inversion IH; subst. rewrite H1 by exact Hc. now rewrite IHcs.
Qed.

Lemma list_sum_set_nth (f : Node -> nat) (cs : list Node) (i : nat)
    (x y : Node) :
  nth_error cs i = Some x ->
  list_sum (map f (set_nth i y cs)) + f x = list_sum (map f cs) + f y.
Proof.
  revert i; induction cs as [|c cs IH]; intros [|i] H; simpl in *;
    try discriminate.
  - inversion H; subst. lia.
  - specialize (IH i H). lia.
Qed.

Lemma count_graft (t : string) (p : path) (c : Node) :
  forall r x, lookup p r = Some x ->
  count_tag t (graft p c r) = count_tag t r + count_tag t c.
Proof.
  induction p as [|i p IH]; intros r x H; cbn [graft lookup] in *.
  - rewrite !(count_tag_unfold t (push_back_child r c)).
    rewrite (count_tag_unfold t r). cbn [push_back_child tag children].
    rewrite map_app, list_sum_app. simpl. lia.
  - destruct (nth_error (children r) i) as [ch|] eqn:E; [|discriminate].
    rewrite (count_tag_unfold t (with_children _ _)), (count_tag_unfold t r).
    cbn [with_children tag children].
    pose proof (list_sum_set_nth (count_tag t) (children r) i
                  (graft p c ch) E) as Hs.
    rewrite (IH ch x H) in Hs. lia.
Qed.

Lemma ascend_done (m m' : Mem) :
  ascend m = Done tt m' ->
  m' = mkMem (set_parents (removelast (parents (state m))) (state m)) (root m).
Proof.
  unfold ascend. destruct (parents (state m)); [discriminate|].
  intros H. now inversion H.
Qed.

Lemma append_done (c : Node) (d : bool) (m m' : Mem) :
  append c d m = Done tt m' ->
  exists p x,
    lookup p (root m) = Some x
    /\ m' = mkMem (if d
                   then set_parents
                          (parents (state m)
                             ++ [p ++ [List.length (children x)]]) (state m)
                   else state m)
                  (graft p c (root m)).
Proof.
  unfold append. destruct (back (parents (state m))) as [p|]; [|discriminate].
  destruct (lookup p (root m)) as [x|] eqn:E; [|discriminate].
  intros H. exists p, x. split; [exact E|].
  destruct d; now inversion H.
Qed.

Lemma append_count (t : string) (c : Node) (d : bool) (m m' : Mem) :
  append c d m = Done tt m' ->
  count_tag t (root m') = count_tag t (root m) + count_tag t c.
Proof.
  intros H. apply append_done in H. destruct H as (p & x & Hl & ->).
  cbn [root]. eapply count_graft; eauto.
Qed.

(** A callback that only emits leaves leaves the state alone and adds no
    formatting element. *)
Lemma emits_plain_quiet (f : string -> M Mem unit) :
  emits_plain f -> forall p, keeps_mem quiet (f p).
Proof.
  intros Hf p m m' E. destruct (Hf p m) as (ns & Hns & Eq).
  rewrite Eq in E. clear Eq. revert m E.
  induction Hns as [|c ns Hc Hns IH]; intros m E.
  - inversion E. split; auto.
  - cbn [append_all] in E. unfold bind in E.
    destruct (append c false m) as [[] m1| |] eqn:E1; try discriminate.
    destruct (IH m1 E) as [Hst Hcnt].
    pose proof (append_done _ _ _ E1) as (q & x & Hl & ->).
    split; [exact Hst|].
    intros t Ht. rewrite (Hcnt t Ht). cbn [root].
    rewrite (@count_graft t q c (root m) x Hl), (@plain_count t Ht c Hc).
    lia.
Qed.

Ltac undo_step H :=
  match type of H with
  | context [match ascend ?M with _ => _ end] =>
      let E := fresh "E" in
      destruct (ascend M) as [[] ?| |] eqn:E; try discriminate;
      apply ascend_done in E; subst;
      cbn [state root spoiler bold italic set_parents] in H
  | context [match append ?nd ?d ?M with _ => _ end] =>
      let E := fresh "E" in
      let Hc := fresh "Hc" in
      destruct (append nd d M) as [[] ?| |] eqn:E; try discriminate;
      pose proof (fun u => @append_count u nd d M _ E) as Hc;
      apply append_done in E; destruct E as (? & ? & _ & ->);
      cbn [state root spoiler bold italic set_parents] in H, Hc
  end.

Ltac count_up H :=
  repeat undo_step H;
  injection H as <-; cbn [root];
  repeat match goal with
  | Hx : forall u, count_tag u (graft _ _ _) = _ |- _ => rewrite Hx; clear Hx
  end;
  unfold toggle_gain;
  cbn [count_tag element map list_sum fold_right spoiler bold italic];
  lia.

(** What a toggle adds to the tree, whenever it returns. *)
Lemma toggle_count (l : level) (t : string) (m m' : Mem) :
  toggle l m = Done tt m' ->
  count_tag t (root m') = count_tag t (root m) + toggle_gain l t (state m).
Proof.
  destruct m as [[s q c b i hs sn di ps] r].
  destruct l; cbn [toggle];
    unfold toggle_code, toggle_spoiler, toggle_bold, toggle_italic,
      bind, get, when, modify, ret; cbn [state root];
    intros H.
  - inversion H. cbn. lia.
  - destruct s, b, i; cbn in H; count_up H.
  - destruct s, b, i; cbn in H; count_up H.
  - destruct s, b, i; cbn in H; count_up H.
Qed.

(** An opening toggle appends one element of its level, a closing one
    none. *)
Lemma toggle_own_count (l : level) (t : string) (m m' : Mem) :
  level_tag l = Some t ->
  toggle l m = Done tt m' ->
  count_tag t (root m')
  = count_tag t (root m) + Nat.b2n (negb (flag l (state m))).
Proof.
  intros Ht E. rewrite (@toggle_count l t m m' E).
  destruct l; inversion Ht; subst; cbn;
    destruct (spoiler (state m)), (bold (state m)), (italic (state m));
    simpl; lia.
Qed.

(** A toggle appends no element of a level scanned before its own. *)
Lemma toggle_outer_count (l0 l' : level) (t : string) (m m' : Mem) :
  depth_of l0 < depth_of l' ->
  level_tag l0 = Some t ->
  toggle l' m = Done tt m' ->
  count_tag t (root m') = count_tag t (root m).
Proof.
  intros Hd Ht E. rewrite (@toggle_count l' t m m' E).
  destruct l0, l'; simpl in Hd; try lia; inversion Ht; subst; cbn;
    destruct (spoiler (state m)), (bold (state m)), (italic (state m));
    simpl; lia.
Qed.

Lemma outer_kept_refl (l : level) (m : Mem) : outer_kept l m m.
Proof. split; [apply frame_refl|auto]. Qed.

Lemma outer_kept_trans (l : level) (m1 m2 m3 : Mem) :
  outer_kept l m1 m2 -> outer_kept l m2 m3 -> outer_kept l m1 m3.
Proof.
  intros [F1 C1] [F2 C2]. split; [eapply frame_trans; eauto|].
  intros l0 t Hd Ht. rewrite (C2 l0 t Hd Ht). exact (C1 l0 t Hd Ht).
Qed.

Lemma outer_kept_weaken (l l' : level) (m m' : Mem) :
  depth_of l <= depth_of l' -> outer_kept l' m m' -> outer_kept l m m'.
Proof.
  intros Hd [F C]. split; [eapply frame_weaken; eauto|].
  intros l0 t Hd0 Ht. apply (C l0 t); [lia|assumption].
Qed.

Lemma level_tag_rank (l : level) (t : string) :
  level_tag l = Some t -> rank t < 4.
Proof. destruct l; intros H; inversion H; subst; cbn; lia. Qed.

Lemma outer_kept_quiet (l : level) (m m' : Mem) :
  quiet m m' -> outer_kept l m m'.
Proof.
  intros [Hst Hc]. split.
  - rewrite Hst. apply frame_refl.
  - intros l0 t _ Ht. apply Hc. eapply level_tag_rank; eauto.
Qed.

Lemma outer_kept_toggle (l l' : level) :
  depth_of l <= depth_of l' -> keeps_mem (outer_kept l) (toggle l').
Proof.
  intros Hd m m' E. split.
  - exact (@keeps_frame_toggle l l' Hd m m' E).
  - intros l0 t Hd0 Ht.
    apply (@toggle_outer_count l0 l' t m m'); [lia|assumption|assumption].
Qed.

Lemma keeps_mem_parse_string (R : Mem -> Mem -> Prop) (sep : string)
    (filler : string -> M Mem unit) (on_match : M Mem unit) :
  (forall m, R m m) ->
  (forall m1 m2 m3, R m1 m2 -> R m2 m3 -> R m1 m3) ->
  (forall p, keeps_mem R (filler p)) -> keeps_mem R on_match ->
  forall fuel frag, keeps_mem R (parse_string fuel frag sep filler on_match).
Proof.
  intros Hrefl Htrans Hf Ht. induction fuel as [|fuel IH]; intros frag m m'.
  - discriminate.
  - cbn [parse_string]. destruct (find frag sep) as [i|]; [|apply Hf].
    unfold bind.
    destruct (filler (substr frag 0 i) m) as [[] m1| |] eqn:E1;
      try discriminate.
    destruct (on_match m1) as [[] m2| |] eqn:E2; try discriminate.
    intros E3. eapply Htrans; [exact (Hf _ _ _ E1)|].
    eapply Htrans; [exact (Ht _ _ E2)|exact (IH _ _ _ E3)].
Qed.

Section Counting.

Variable highlight_syntax : string -> M Mem unit.
Variable fn : string -> M Mem unit.
Hypothesis highlight_plain : emits_plain highlight_syntax.
Hypothesis fn_plain : emits_plain fn.

Lemma level_scan_keeps (l : level) (a : ascii)
    (filler : string -> M Mem unit) (fuel : nat) (frag : string) :
  (forall p, keeps_mem (outer_kept l) (filler p)) ->
  keeps_mem (outer_kept l)
    (parse_string fuel frag (sep2 a a) filler (toggle l)).
Proof.
  intros Hf. apply keeps_mem_parse_string.
  - apply outer_kept_refl.
  - apply outer_kept_trans.
  - exact Hf.
  - apply outer_kept_toggle. lia.
Qed.

(** A scanner changes nothing of the levels scanned before its own. *)
Lemma scanner_outer_kept (l : level) (fuel : nat) (frag : string) :
  keeps_mem (outer_kept l) (scanner highlight_syntax fn l fuel frag).
Proof.
  assert (Hi : forall fuel frag,
             keeps_mem (outer_kept Italic) (parse_italics fn fuel frag)).
  { intros fu fr. apply (@level_scan_keeps Italic "~"%char).
    intros p m m' E. apply outer_kept_quiet.
    exact (@emits_plain_quiet fn fn_plain p m m' E). }
  assert (Hb : forall fuel frag,
             keeps_mem (outer_kept Bold) (parse_bolds fn fuel frag)).
  { intros fu fr. apply (@level_scan_keeps Bold "_"%char).
    intros p m m' E. apply outer_kept_weaken with (l' := Italic);
      [simpl; lia|exact (Hi _ _ _ _ E)]. }
  assert (Hs : forall fuel frag,
             keeps_mem (outer_kept Spoiler) (parse_spoilers fn fuel frag)).
  { intros fu fr. apply (@level_scan_keeps Spoiler "*"%char).
    intros p m m' E. apply outer_kept_weaken with (l' := Bold);
      [simpl; lia|exact (Hb _ _ _ _ E)]. }
  destruct l; cbn [scanner]; auto.
  apply (@level_scan_keeps Code "`"%char).
  intros p m m'. unfold code_filler, bind, get.
  destruct (code (state m)).
  - cbn. intros E. apply outer_kept_quiet.
    exact (@emits_plain_quiet highlight_syntax highlight_plain _ m m' E).
  - intros E. apply outer_kept_weaken with (l' := Spoiler);
      [simpl; lia|exact (Hs _ _ _ _ E)].
Qed.

(** What the filler of a level keeps of that level: its flag and the
    number of its elements. *)
Lemma filler_keeps_own (l : level) (t : string) (fuel : nat) (p : string)
    (m m' : Mem) :
  level_tag l = Some t ->
  match l with
  | Code => code_filler highlight_syntax fn fuel p
  | Spoiler => parse_bolds fn fuel p
  | Bold => parse_italics fn fuel p
  | Italic => fn p
  end m = Done tt m' ->
  flag l (state m') = flag l (state m)
  /\ count_tag t (root m') = count_tag t (root m).
Proof.
  intros Ht E. destruct l; inversion Ht; subst.
  - destruct (@scanner_outer_kept Bold fuel p m m' E) as [(O & _) C].
    split; [symmetry; apply O|]. apply (C Spoiler); [simpl; lia|reflexivity].
  - destruct (@scanner_outer_kept Italic fuel p m m' E) as [(O & _) C].
    split; [symmetry; apply O|]. apply (C Bold); [simpl; lia|reflexivity].
  - destruct (@emits_plain_quiet fn fn_plain p m m' E) as [Hst Hc].
    split; [now rewrite Hst|]. apply Hc. cbn. lia.
Qed.

End Counting.

(** Over a run of pieces, the elements of the level grow by one per
    toggle that finds the flag clear. *)
Lemma run_pieces_opens (I : bool -> nat -> Mem -> Prop)
    (filler : string -> M Mem unit) (on_match : M Mem unit) :
  (forall x c p m m', I x c m -> filler p m = Done tt m' -> I x c m') ->
  (forall x c m m', I x c m -> on_match m = Done tt m' ->
     I (negb x) (c + Nat.b2n (negb x)) m') ->
  forall ps x c m m',
    ps <> [] -> I x c m ->
    run_pieces filler on_match ps m = Done tt m' ->
    I (xorb x (Nat.odd (List.length ps - 1)))
      (c + opens x (List.length ps - 1)) m'.
Proof.
  intros Hf Ht. induction ps as [|p ps IH]; intros x c m m' Hne Hi E;
    [congruence|].
  destruct ps as [|p' ps].
  - simpl in *. rewrite xorb_false_r, Nat.add_0_r. eauto.
  - change (run_pieces filler on_match (p :: p' :: ps))
      with (filler p ;; on_match ;; run_pieces filler on_match (p' :: ps))
      in E.
    unfold bind in E.
    destruct (filler p m) as [[] m1| |] eqn:E1; try discriminate.
    destruct (on_match m1) as [[] m2| |] eqn:E2; try discriminate.
    pose proof (IH (negb x) (c + Nat.b2n (negb x)) m2 m'
                  ltac:(discriminate) (Ht _ _ _ _ (Hf _ _ _ _ _ Hi E1) E2) E)
      as H.
    replace (xorb x (Nat.odd (List.length (p :: p' :: ps) - 1)))
      with (xorb (negb x) (Nat.odd (List.length (p' :: ps) - 1))).
    + replace (c + opens x (List.length (p :: p' :: ps) - 1))
        with (c + Nat.b2n (negb x) + opens (negb x) (List.length (p' :: ps) - 1));
        [exact H|].
      simpl. rewrite Nat.sub_0_r. lia.
    + simpl. rewrite Nat.sub_0_r, Nat.odd_succ, <- Nat.negb_odd.
      destruct x, (Nat.odd (List.length ps)); reflexivity.
Qed.

Lemma opens_even (x : bool) (n : nat) : opens x (2 * n) = n.
Proof.
  revert x. induction n as [|n IH]; intros x; [reflexivity|].
  replace (2 * S n) with (S (S (2 * n))) by lia.
  cbn [opens]. rewrite negb_involutive, IH. destruct x; simpl; lia.
Qed.

Lemma toggle_flips (l : level) (m m' : Mem) :
  toggle l m = Done tt m' -> flag l (state m') = negb (flag l (state m)).
Proof.
  intros E. pose proof (@toggle_flags l m m' E) as H.
  destruct l; [apply (f_equal code H)|apply (f_equal spoiler H)
              |apply (f_equal bold H)|apply (f_equal italic H)].
Qed.

(** The elements of its level that a scanner appends: one per delimiter
    met with the flag clear. *)
Lemma scanner_own_count (highlight_syntax fn : string -> M Mem unit)
    (l : level) (t : string) (fuel : nat) (frag : string) (m m' : Mem) :
  emits_plain highlight_syntax ->
  emits_plain fn ->
  level_tag l = Some t ->
  String.length frag < fuel ->
  scanner highlight_syntax fn l fuel frag m = Done tt m' ->
  count_tag t (root m')
  = count_tag t (root m)
    + opens (flag l (state m))
        (occurrences (delimiter l) (delimiter l) frag).
Proof.
  intros Hh Hf Ht Hlen E.
  pose (I := fun (x : bool) (c : nat) (m : Mem) =>
               flag l (state m) = x /\ count_tag t (root m) = c).
  assert (Htog : forall x c m m', I x c m -> toggle l m = Done tt m' ->
                   I (negb x) (c + Nat.b2n (negb x)) m').
  { intros x c m1 m2 [Hx Hc] E2. split.
    - rewrite (@toggle_flips l m1 m2 E2). now rewrite Hx.
    - rewrite (@toggle_own_count l t m1 m2 Ht E2). now rewrite Hx, Hc. }
  assert (Hfill : forall x c p m1 m2, I x c m1 ->
                    match l with
                    | Code => code_filler highlight_syntax fn fuel p
                    | Spoiler => parse_bolds fn fuel p
                    | Bold => parse_italics fn fuel p
                    | Italic => fn p
                    end m1 = Done tt m2 -> I x c m2).
  { intros x c p m1 m2 [Hx Hc] E2.
    destruct (@filler_keeps_own highlight_syntax fn Hh Hf l t fuel p m1 m2
                Ht E2) as [Hfl Hcn].
    split; congruence. }
  rewrite <- split2_count.
  assert (Hgoal : I (xorb (flag l (state m))
                       (Nat.odd (List.length
                                   (split2 (delimiter l) (delimiter l) frag)
                                 - 1)))
                    (count_tag t (root m)
                     + opens (flag l (state m))
                         (List.length
                            (split2 (delimiter l) (delimiter l) frag) - 1))
                    m').
  { destruct l; try discriminate; cbn [scanner delimiter] in *;
      unfold parse_spoilers, parse_bolds, parse_italics in E.
    - change "**" with (sep2 "*" "*") in E.
      rewrite parse_string_split in E by assumption.
      eapply (@run_pieces_opens I); [exact Hfill|exact Htog| | |exact E];
        [apply split2_nonempty|split; reflexivity].
    - change "__" with (sep2 "_" "_") in E.
      rewrite parse_string_split in E by assumption.
      eapply (@run_pieces_opens I); [exact Hfill|exact Htog| | |exact E];
        [apply split2_nonempty|split; reflexivity].
    - change "~~" with (sep2 "~" "~") in E.
      rewrite parse_string_split in E by assumption.
      eapply (@run_pieces_opens I); [exact Hfill|exact Htog| | |exact E];
        [apply split2_nonempty|split; reflexivity]. }
  destruct Hgoal as [_ Hc]. exact Hc.
Qed.

(** [parse_code] is the run over the pieces cut at the code delimiters,
    each handled by the value the code flag has when its turn comes. *)
Lemma parse_code_run (highlight_syntax fn : string -> M Mem unit)
    (fuel : nat) :
  emits_plain highlight_syntax ->
  emits_plain fn ->
  forall frag m, String.length frag < fuel ->
  parse_code highlight_syntax fn fuel frag m
  = code_run highlight_syntax fn fuel (code (state m))
      (split2 "`" "`" frag) m.
Proof.
  intros Hh Hf frag m Hlen. unfold parse_code.
  change "``" with (sep2 "`" "`").
  rewrite parse_string_split by assumption.
  generalize (split2 "`" "`" frag). clear frag Hlen.
  assert (Hpiece : forall p m,
             code_filler highlight_syntax fn fuel p m
             = code_piece highlight_syntax fn fuel (code (state m)) p m).
  { intros p m0. unfold code_filler, code_piece, bind, get.
    destruct (code (state m0)); reflexivity. }
  assert (Hkeep : forall p m1 m2,
             code_piece highlight_syntax fn fuel (code (state m1)) p m1
             = Done tt m2 -> code (state m2) = code (state m1)).
  { intros p m1 m2. unfold code_piece. destruct (code (state m1)) eqn:Hc.
    - intros E.
      destruct (@emits_plain_quiet highlight_syntax Hh _ m1 m2 E) as [Hst _].
      now rewrite Hst.
    - intros E.
      destruct (@scanner_outer_kept highlight_syntax fn Hh Hf Spoiler fuel p
                  m1 m2 E) as [(O & _) _].
      simpl in O. congruence. }
  intros ps. revert m. induction ps as [|p ps IH]; intros m; [reflexivity|].
  destruct ps as [|p' ps]; [apply Hpiece|].
  change (run_pieces (code_filler highlight_syntax fn fuel) toggle_code
            (p :: p' :: ps))
    with (code_filler highlight_syntax fn fuel p ;; toggle_code ;;
          run_pieces (code_filler highlight_syntax fn fuel) toggle_code
            (p' :: ps)).
  change (code_run highlight_syntax fn fuel (code (state m)) (p :: p' :: ps))
    with (code_piece highlight_syntax fn fuel (code (state m)) p ;;
          toggle_code ;;
          code_run highlight_syntax fn fuel (negb (code (state m)))
            (p' :: ps)).
  unfold bind at 1 3. rewrite Hpiece.
  destruct (code_piece highlight_syntax fn fuel (code (state m)) p m)
    as [[] m1| |] eqn:E1; try reflexivity.
  unfold bind. 
  destruct (toggle_code m1) as [[] m2| |] eqn:E2; try reflexivity.
  rewrite IH.
  pose proof (@toggle_flips Code m1 m2 E2) as Hfl. cbn [flag] in Hfl.
  rewrite Hfl, (Hkeep p m m1 E1). reflexivity.
Qed.

(** ** The canonical nesting *)

Lemma wf_root_strict (r : Node) : wf_root r = true -> strict_nesting r.
Proof.
  intros Hr a d (p & q & Hp & Hq & Ha & Hd).
  exact (@wf_root_ancestry r a d p q Hr Hp Hq Ha Hd).
Qed.

(** C1.  Whatever fragments are fed in succession through the pipeline
    from a freshly reset state, with callbacks that only emit leaves and
    over a root whose content is well nested, every scan returns and in
    the resulting tree the formatting elements nest strictly as spoiler
    around bold around italic: no italic element is an ancestor of a bold
    or spoiler one, no bold element an ancestor of a spoiler one, none
    lies inside one of its own tag, and none lies inside any other kind
    of element.  No spoiler, bold or italic element comes from text
    inside a code span: [parse_code] hands the pieces between code
    delimiters, in turn, to the inner scanners and to the highlighter,
    and a piece handled with the code flag set leaves the state as it was
    and adds no del, b or i element, whatever delimiters it holds. *)
Theorem canonical_nesting (highlight_syntax fn : string -> M Mem unit)
    (r : Node) (frags : list string) (fuel : nat) :
  emits_plain highlight_syntax ->
  emits_plain fn ->
  wf_root r = true ->
  (forall frag, In frag frags -> String.length frag < fuel) ->
  (exists m',
     parse_all highlight_syntax fn fuel frags (reset r) = Done tt m'
     /\ strict_nesting (root m')
     /\ canonical_ancestry (root m'))
  /\ (forall frag m,
        String.length frag < fuel ->
        parse_code highlight_syntax fn fuel frag m
        = code_run highlight_syntax fn fuel (code (state m))
            (split2 "`" "`" frag) m)
  /\ (forall piece m1 m2,
        code (state m1) = true ->
        code_filler highlight_syntax fn fuel piece m1 = Done tt m2 ->
        state m2 = state m1
        /\ forall t, rank t < 4 ->
                     count_tag t (root m2) = count_tag t (root m1)).
Proof.
  intros Hh Hf Hr Hlen. split; [|split].
  - destruct (@parse_all_good highlight_syntax fn Hh Hf [] [] true fuel frags
                (reset r) Hlen (@reset_good r Hr)) as (m' & E & _ & Hw).
    destruct (Hw eq_refl) as [_ Hwf].
    exists m'. split; [assumption|]. split.
    + now apply wf_root_strict.
    + now apply wf_root_canonical.
  - intros frag m Hl. now apply parse_code_run.
  - intros piece m1 m2 Hc E. rewrite code_filler_open in E by assumption.
    exact (@emits_plain_quiet highlight_syntax Hh _ m1 m2 E).
Qed.

Lemma canonical_nesting_witness :
  exists m',
    parse_all (emit_text "code") (emit_text "span") 15
      ["**a__b__c**"; "__a**b**c__"; "~~a``**b``c**d"]
      (reset (element "blockquote"))
    = Done tt m'
    /\ strict_nesting (root m')
    /\ canonical_ancestry (root m').
Proof.
  apply (@canonical_nesting (emit_text "code") (emit_text "span")
           (element "blockquote")
           ["**a__b__c**"; "__a**b**c__"; "~~a``**b``c**d"] 15).
  - apply emit_text_plain. reflexivity.
  - apply emit_text_plain. reflexivity.
  - reflexivity.
  - intros frag [<-|[<-|[<-|[]]]]; simpl; lia.
Defined.

(** C6.  Whenever they return, on any state, two toggles of one level in
    a row flip the flag of the level and flip it back, every other flag
    staying as it was.  On a stack that agrees with the flags they do
    return and the stack is as deep after them as before; and a scan of
    the level over a fragment with [2 n] of its delimiters returns with
    the flag as it was and the stack agreeing with the flags, having
    appended exactly [n] elements of the level (for the code level, which
    has no element of its own, having handed the [2 n + 1] pieces in turn
    to the inner scanners and to the highlighter), and, over a
    well-nested root, no formatting element lies inside an element of its
    own tag. *)
Theorem toggle_involution (highlight_syntax fn : string -> M Mem unit)
    (l : level) (m : Mem) :
  (forall m1 m2,
     toggle l m = Done tt m1 ->
     toggle l m1 = Done tt m2 ->
     flag l (state m1) = negb (flag l (state m))
     /\ flag l (state m2) = flag l (state m)
     /\ flags_of (state m2) = flags_of (state m))
  /\ (forall base p0,
        shape base p0 m ->
        (exists m1 m2,
           toggle l m = Done tt m1
           /\ toggle l m1 = Done tt m2
           /\ List.length (parents (state m2))
              = List.length (parents (state m)))
        /\ (emits_plain highlight_syntax ->
            emits_plain fn ->
            forall fuel frag n,
              String.length frag < fuel ->
              occurrences (delimiter l) (delimiter l) frag = 2 * n ->
              exists m',
                scanner highlight_syntax fn l fuel frag m = Done tt m'
                /\ flag l (state m') = flag l (state m)
                /\ shape base p0 m'
                /\ (forall t, level_tag l = Some t ->
                      count_tag t (root m') = count_tag t (root m) + n)
                /\ (l = Code ->
                    scanner highlight_syntax fn l fuel frag m
                    = code_run highlight_syntax fn fuel (code (state m))
                        (split2 "`" "`" frag) m
                    /\ List.length (split2 "`" "`" frag) = 2 * n + 1)
                /\ (p0 = [] -> wf_root (root m) = true ->
                    no_self_nesting (root m')))).
Proof.
  split.
  - intros m1 m2 E1 E2.
    destruct (@flags_restored l (state m) (state m1) (state m2)
                (@toggle_flags l m m1 E1) (@toggle_flags l m1 m2 E2))
      as [Hfl Hx].
    split; [assumption|]. split; [|assumption].
    destruct l; [apply (f_equal code Hfl)|apply (f_equal spoiler Hfl)
                |apply (f_equal bold Hfl)|apply (f_equal italic Hfl)].
  - intros base p0 Hsh. split.
    + destruct (toggle_good l (shape_good Hsh)) as (m1 & E1 & F1 & Hg1).
      destruct (toggle_good l Hg1) as (m2 & E2 & F2 & [Hsh2 _]).
      destruct (@flags_restored l (state m) (state m1) (state m2) F1 F2)
        as [Hfl Hx].
      exists m1, m2. repeat split; try assumption.
      rewrite (shape_depth Hsh2), (shape_depth Hsh).
      unfold open_count.
      pose proof (f_equal spoiler Hfl) as Hs.
      pose proof (f_equal bold Hfl) as Hb.
      pose proof (f_equal italic Hfl) as Hi.
      cbn in Hs, Hb, Hi. now rewrite Hs, Hb, Hi.
    + intros Hh Hf fuel frag n Hlen Hocc.
      destruct (@scanner_good highlight_syntax fn Hh Hf base p0 false l fuel
                  frag m Hlen (shape_good Hsh)) as (m' & E & Hx & [Hsh' _]).
      exists m'. split; [assumption|].
      split; [|split; [assumption|split; [|split]]].
      * rewrite Hx, Hocc, Nat.odd_even. apply xorb_false_r.
      * intros t Ht.
        rewrite (@scanner_own_count highlight_syntax fn l t fuel frag m m'
                   Hh Hf Ht Hlen E).
        now rewrite Hocc, opens_even.
      * intros ->. cbn [scanner delimiter] in *. split.
        -- now apply parse_code_run.
        -- rewrite (@split2_length "`"%char "`"%char
                      (S (String.length frag))) by lia.
           rewrite Hocc. lia.
      * intros Hp0 Hr.
        destruct (@scanner_good highlight_syntax fn Hh Hf base p0 true l fuel
                    frag m Hlen) as (m'' & E' & _ & [_ Hw]).
        { split; [assumption|auto]. }
        rewrite E in E'. inversion E'; subst m''.
        apply wf_root_no_self_nesting. now destruct Hw.
Qed.

Lemma toggle_involution_witness :
  exists m',
    scanner (emit_text "code") (emit_text "span") Spoiler 12 "**x**y**z**"
      (reset (element "blockquote")) = Done tt m'
    /\ flag Spoiler (state m')
       = flag Spoiler (state (reset (element "blockquote")))
    /\ shape [] [] m'
    /\ count_tag "del" (root m') = 2
    /\ no_self_nesting (root m').
Proof.
  assert (Hsh : shape [] [] (reset (element "blockquote"))).
  { exists []. split; [reflexivity|]. split; [now exists "blockquote"|exact I]. }
  destruct (@toggle_involution (emit_text "code") (emit_text "span") Spoiler
              (reset (element "blockquote"))) as [_ H].
  destruct (H [] [] Hsh) as [_ H'].
  destruct (H' (emit_text_plain "code" eq_refl)
               (emit_text_plain "span" eq_refl) 12 "**x**y**z**" 2)
    as (m' & E & Hf & Hs & Hc & _ & Hn); [simpl; lia|reflexivity|].
  exists m'. split; [exact E|]. split; [exact Hf|]. split; [exact Hs|].
  split; [exact (Hc "del" eq_refl)|]. now apply Hn.
Defined.
